(** * Verification of the scraping back end: strategy chain and task manager

    Shallow embedding of [backend/scrapers/combined_scraper.py]
    (class [CombinedScraper]) and of [backend/tasks.py] (class
    [TaskManager]).  Python dictionaries are finite maps from strings,
    values form a small universe of Python objects, and a call that may
    raise returns an [outcome]. *)

From Stdlib Require Import ZArith List Bool Lia.
From Stdlib.Strings Require Import Ascii Byte.
From stdpp Require Import gmap strings list fin_maps sorting pretty.

Open Scope string_scope.
Open Scope list_scope.

(** ** Python values *)

(** The objects that flow through the orchestration code: the entries of
    a result dictionary ([Dict[str, Any]] in the source). *)
#[warnings="-register-all"]
Inductive value : Type :=
| VNone
| VBool (b : bool)
| VInt (n : Z)
| VStr (s : string)
| VList (l : list value)
| VDict (d : gmap string value).

Abbreviation dict := (gmap string value).

(** Truth value testing, as [if x:] and [x and y] do it. *)
Definition truthy (v : value) : bool :=
  match v with
  | VNone => false
  | VBool b => b
  | VInt n => negb (Z.eqb n 0)
  | VStr EmptyString => false
  | VStr _ => true
  | VList [] => false
  | VList _ => true
  | VDict d => negb (Nat.eqb (size d) 0)
  end.

(** [type(v).__name__] *)
Definition type_name (v : value) : string :=
  match v with
  | VNone => "NoneType"
  | VBool _ => "bool"
  | VInt _ => "int"
  | VStr _ => "str"
  | VList _ => "list"
  | VDict _ => "dict"
  end.

(** [isinstance(v, dict)] *)
Definition is_dict (v : value) : bool :=
  match v with VDict _ => true | _ => false end.

(** A call either returns or raises an [Exception] (the class the
    [except] clauses of the source catch); the exception is kept as its
    [str(exc)] text, the only thing the code reads from it. *)
Inductive outcome (A : Type) : Type :=
| Return (a : A)
| Raise (msg : string).
Arguments Return {A} a.
Arguments Raise {A} msg.

(** [d.get(k)] *)
Definition dict_get (k : string) (d : dict) : value :=
  default VNone (d !! k).

(** [d.setdefault(k, v)], for its effect on [d] *)
Definition setdefault (k : string) (v : value) (d : dict) : dict :=
  match d !! k with
  | Some _ => d
  | None => <[k := v]> d
  end.

(** The [TypeError] text of [v["scraper"] = ...] on a non-dictionary. *)
Definition setitem_type_error (v : value) : string :=
  match v with
  | VList _ => "list indices must be integers or slices, not str"
  | _ => "'" +:+ type_name v +:+ "' object does not support item assignment"
  end.

(** ** backend/scrapers/base.py and combined_scraper.py *)

Module Scrapers.

(** class [Scraper]: the name and the two methods the chain calls, with
    the return types base.py declares ([bool] and [Dict[str, Any]]). *)
Record Scraper : Type := mkScraper {
  name : string;
  can_handle : string -> outcome bool;
  scrape : string -> outcome dict;
}.

(** The method calls the chain makes, by position of the callee in
    [self.scrapers]. *)
Inductive call : Type :=
| Call_can_handle (i : nat)
| Call_scrape (i : nat).

Definition call_index (c : call) : nat :=
  match c with Call_can_handle i | Call_scrape i => i end.

(** What one [CombinedScraper.scrape] run does: the calls it made, in
    order, and how it ended. *)
Definition run : Type := list call * outcome dict.

Definition after (log : list call) (r : run) : run :=
  (log ++ fst r, snd r).

Section Chain.

(** Python's [str()], which the f-strings of the chain apply to the
    [error] entry of a result.  The chain only concatenates its output. *)
Variable py_str : value -> string.

(** Lines 88-99: the guard of one loop iteration.  Returns the calls
    made and whether the loop goes on to call [scrape]. *)
Definition guard (i : nat) (scraper : Scraper) (url : string) : list call * bool :=
  if negb (String.eqb (name scraper) "file") then
    match can_handle scraper url with
    | Return b => ([Call_can_handle i], b)
    | Raise _ => ([Call_can_handle i], false)
    end
  else ([], true).

(** Lines 108-112: forwarding a successful result. *)
Definition forward_success (scraper_name : string) (result : dict) : outcome dict :=
  let result := setdefault "metadata" (VDict ∅) result in
  match dict_get "metadata" result with
  | VDict metadata =>
      Return (<["metadata" := VDict (<["scraper" := VStr scraper_name]> metadata)]> result)
  | v => Raise (setitem_type_error v)
  end.

(** Lines 114-115: the failure list after a result without success. *)
Definition record_error (scraper_name : string) (result : dict) (errors : list string) : list string :=
  match result !! "error" with
  | Some e =>
      if truthy e then errors ++ [scraper_name +:+ ": " +:+ py_str e] else errors
  | None => errors
  end.

(** Lines 117-125: the result when no scraper succeeded. *)
Definition all_failed (errors : list string) : dict :=
  <["success" := VBool false]>
  (<["text" := VStr EmptyString]>
  (<["images" := VList []]>
  (<["links" := VList []]>
  (<["metadata" := VDict (<["scraper" := VStr "none"]> ∅)]>
  (<["errors" := VList (VStr <$> errors)]>
  (<["error" := VStr "All scraping strategies failed"]> ∅)))))).

(** Lines 87-125: the loop over [self.scrapers], from position [i] on,
    with the failure list so far. *)
Fixpoint scrape_loop (scrapers : list Scraper) (i : nat) (url : string)
    (errors : list string) : run :=
  match scrapers with
  | [] => ([], Return (all_failed errors))
  | scraper :: rest =>
      let (asked, go) := guard i scraper url in
      if negb go then after asked (scrape_loop rest (S i) url errors)
      else
        match scrape scraper url with
        | Raise exc =>
            let err_msg := name scraper +:+ " scraper raised exception: " +:+ exc in
            after (asked ++ [Call_scrape i])
                  (scrape_loop rest (S i) url (errors ++ [err_msg]))
        | Return result =>
            if truthy (dict_get "success" result) then
              (asked ++ [Call_scrape i], forward_success (name scraper) result)
            else
              after (asked ++ [Call_scrape i])
                    (scrape_loop rest (S i) url (record_error (name scraper) result errors))
        end
  end.

(** class [CombinedScraper]: the instances built by [__init__]. *)
Record CombinedScraper : Type := mkCombined {
  scrapers : list Scraper;
}.

(** [CombinedScraper.scrape(url)] *)
Definition combined_scrape (self : CombinedScraper) (url : string) : run :=
  scrape_loop (scrapers self) 0 url [].

(** *** Vocabulary for the statements *)

(** The loop calls [scrape] on this scraper when it gets to it. *)
Definition attempted (scraper : Scraper) (url : string) : bool :=
  snd (guard 0 scraper url).

(** The scraper is called and returns a result whose [success] is true. *)
Definition succeeds (scraper : Scraper) (url : string) : bool :=
  attempted scraper url &&
  match scrape scraper url with
  | Return result => truthy (dict_get "success" result)
  | Raise _ => false
  end.

(** The calls of one iteration that does not end the loop. *)
Definition calls_of (i : nat) (scraper : Scraper) (url : string) : list call :=
  fst (guard i scraper url) ++
  (if attempted scraper url then [Call_scrape i] else []).

(** The failure list after one iteration that does not end the loop. *)
Definition failure_of (scraper : Scraper) (url : string) (errors : list string) : list string :=
  if attempted scraper url then
    match scrape scraper url with
    | Raise exc => errors ++ [name scraper +:+ " scraper raised exception: " +:+ exc]
    | Return result => record_error (name scraper) result errors
    end
  else errors.

Fixpoint passed_log (passed : list Scraper) (i : nat) (url : string) : list call :=
  match passed with
  | [] => []
  | scraper :: rest => calls_of i scraper url ++ passed_log rest (S i) url
  end.

Fixpoint passed_errors (passed : list Scraper) (url : string) (errors : list string) : list string :=
  match passed with
  | [] => errors
  | scraper :: rest => passed_errors rest url (failure_of scraper url errors)
  end.

(** The result's [metadata] entry is absent or a dictionary, as
    base.py documents it. *)
Definition metadata_ok (result : dict) : bool :=
  match result !! "metadata" with
  | Some v => is_dict v
  | None => true
  end.

(** The [metadata] dictionary of a result, empty when there is none. *)
Definition metadata_of (result : dict) : dict :=
  match result !! "metadata" with
  | Some (VDict m) => m
  | _ => ∅
  end.

(** An invoked scraper leaves an entry in the failure list: it raised,
    or its result has a true [error] entry. *)
Definition reports (scraper : Scraper) (url : string) : bool :=
  match scrape scraper url with
  | Raise _ => true
  | Return result =>
      match result !! "error" with
      | Some e => truthy e
      | None => false
      end
  end.

Definition failure_entry (scraper : Scraper) (url : string) : string :=
  match scrape scraper url with
  | Raise exc => name scraper +:+ " scraper raised exception: " +:+ exc
  | Return result => name scraper +:+ ": " +:+ py_str (dict_get "error" result)
  end.

(** The scrapers whose [scrape] a log calls, in call order; [base] is
    the position of the head of [chain] in [self.scrapers]. *)
Definition executed (base : nat) (chain : list Scraper) (log : list call) : list Scraper :=
  omap (fun c => match c with
                 | Call_scrape i => if decide (base <= i) then chain !! (i - base) else None
                 | Call_can_handle _ => None
                 end) log.

(** *** The rest of [CombinedScraper] *)

(** An entry of the [scrapers] argument of [__init__]: an instance of
    [Scraper], given as its behaviour for each value of its
    [user_agent] attribute, or a class, given as its constructor call
    [scr(user_agent=...)]. *)
Inductive scraper_spec : Type :=
| Instance (scr : string -> Scraper)
| Class (cls : string -> outcome Scraper).

(** Lines 71-82 of [__init__]: the entries normalised to instances. *)
Fixpoint instantiate (user_agent : string) (specs : list scraper_spec) : list Scraper :=
  match specs with
  | [] => []
  | Instance scr :: rest => scr user_agent :: instantiate user_agent rest
  | Class cls :: rest =>
      match cls user_agent with
      | Return instance => instance :: instantiate user_agent rest
      | Raise _ => instantiate user_agent rest
      end
  end.

(** [CombinedScraper(scrapers, user_agent)] for a given list; [user_agent]
    is the value [Scraper.__init__] has stored in [self.user_agent]. *)
Definition CombinedScraper_init (user_agent : string) (specs : list scraper_spec)
    : CombinedScraper :=
  mkCombined (instantiate user_agent specs).

(** A [CombinedScraper] used as a scraper: its class attribute [name],
    the [can_handle] it inherits from [Scraper], and its [scrape]. *)
Definition as_scraper (self : CombinedScraper) : Scraper :=
  mkScraper "combined"
            (fun _ => Return true)
            (fun url => snd (combined_scrape self url)).

(** The place of a call in a run: scrapers in chain order, and for one
    scraper [can_handle] before [scrape]. *)
Definition call_rank (c : call) : nat :=
  match c with
  | Call_can_handle i => 2 * i
  | Call_scrape i => 2 * i + 1
  end.

(** *** Members that do not keep the declared return type *)

(** Python does not enforce the [Dict[str, Any]] base.py declares for
    [scrape]: a member of [self.scrapers] is any object with a [name]
    and the two methods, and its [scrape] may return any object. *)
Record Member : Type := mkMember {
  member_name : string;
  member_can_handle : string -> outcome bool;
  member_scrape : string -> outcome value;
}.

(** A scraper that keeps the declared return type, as a member. *)
Definition as_member (scraper : Scraper) : Member :=
  mkMember (name scraper) (can_handle scraper)
           (fun url => match scrape scraper url with
                       | Return result => Return (VDict result)
                       | Raise exc => Raise exc
                       end).

(** The [AttributeError] text of [result.get] (line 108) on an object
    that is not a dictionary. *)
Definition get_attribute_error (v : value) : string :=
  "'" +:+ type_name v +:+ "' object has no attribute 'get'".

(** Lines 88-99 for a member. *)
Definition member_guard (i : nat) (member : Member) (url : string) : list call * bool :=
  if negb (String.eqb (member_name member) "file") then
    match member_can_handle member url with
    | Return b => ([Call_can_handle i], b)
    | Raise _ => ([Call_can_handle i], false)
    end
  else ([], true).

(** Lines 87-125 for members: as [scrape_loop], except that line 108,
    which is outside both [try] blocks, raises on a result that is not
    a dictionary. *)
Fixpoint scrape_loop_members (members : list Member) (i : nat) (url : string)
    (errors : list string) : run :=
  match members with
  | [] => ([], Return (all_failed errors))
  | member :: rest =>
      let (asked, go) := member_guard i member url in
      if negb go then after asked (scrape_loop_members rest (S i) url errors)
      else
        match member_scrape member url with
        | Raise exc =>
            let err_msg :=
              member_name member +:+ " scraper raised exception: " +:+ exc in
            after (asked ++ [Call_scrape i])
                  (scrape_loop_members rest (S i) url (errors ++ [err_msg]))
        | Return (VDict result) =>
            if truthy (dict_get "success" result) then
              (asked ++ [Call_scrape i], forward_success (member_name member) result)
            else
              after (asked ++ [Call_scrape i])
                    (scrape_loop_members rest (S i) url
                       (record_error (member_name member) result errors))
        | Return v => (asked ++ [Call_scrape i], Raise (get_attribute_error v))
        end
  end.

End Chain.

(** *** api_scraper.py *)

(** class [ApiScraper]: lines 31-49. *)
Definition ApiScraper : Scraper :=
  mkScraper "api"
    (fun _ => Return false)
    (fun _ => Return
       (<["success" := VBool false]>
       (<["text" := VStr EmptyString]>
       (<["images" := VList []]>
       (<["links" := VList []]>
       (<["metadata" := VDict ∅]>
       (<["error" := VStr "ApiScraper not implemented for this domain"]> ∅))))))).

End Scrapers.

(** ** backend/tasks.py *)

Module Tasks.

(** *** concurrent.futures.Future, as far as [TaskManager] uses it *)

Inductive future_state : Type :=
| PENDING
| RUNNING
| CANCELLED
| CANCELLED_AND_NOTIFIED
| FINISHED.

(** Where the [_callback] closure of [TaskManager.submit] stands for a
    future: not yet passed to [add_done_callback]; held in the
    future's [_done_callbacks]; being invoked (the future is done, the
    store into [self._results] has not happened yet); returned. *)
Inductive callback_state : Type :=
| NotAdded
| Waiting
| Due
| Ran.

Record Future : Type := mkFuture {
  _state : future_state;
  (** [_result] / [_exception]: what the submitted call did, once a
      worker has run it *)
  _outcome : option (outcome value);
  _done_callback : callback_state;
}.

(** [Future.done()] *)
Definition done (f : Future) : bool :=
  match _state f with
  | CANCELLED | CANCELLED_AND_NOTIFIED | FINISHED => true
  | PENDING | RUNNING => false
  end.

(** The state change of a future that becomes done: the callbacks it
    holds are invoked next. *)
Definition invoke_callbacks (c : callback_state) : callback_state :=
  match c with
  | Waiting => Due
  | c => c
  end.

(** [Future.cancel()] *)
Definition future_cancel (f : Future) : Future * bool :=
  match _state f with
  | RUNNING | FINISHED => (f, false)
  | CANCELLED | CANCELLED_AND_NOTIFIED => (f, true)
  | PENDING =>
      (mkFuture CANCELLED (_outcome f) (invoke_callbacks (_done_callback f)), true)
  end.

(** [Future.result()] on a future that is done; [CancelledError()] has
    the empty text.  On a future that is not done the call blocks. *)
Definition future_result (f : Future) : option (outcome value) :=
  match _state f with
  | CANCELLED | CANCELLED_AND_NOTIFIED => Some (Raise EmptyString)
  | FINISHED => _outcome f
  | PENDING | RUNNING => None
  end.

(** [Future.set_running_or_notify_cancel()], called by the worker that
    takes the work item from the queue. *)
Definition set_running_or_notify_cancel (f : Future) : option Future :=
  match _state f with
  | PENDING => Some (mkFuture RUNNING (_outcome f) (_done_callback f))
  | CANCELLED => Some (mkFuture CANCELLED_AND_NOTIFIED (_outcome f) (_done_callback f))
  | _ => None
  end.

(** [Future.set_result(v)] / [Future.set_exception(exc)], called by the
    worker when the submitted call returns or raises. *)
Definition set_outcome (o : outcome value) (f : Future) : option Future :=
  match _state f with
  | RUNNING => Some (mkFuture FINISHED (Some o) (invoke_callbacks (_done_callback f)))
  | _ => None
  end.

(** [Future.add_done_callback(fn)]: kept when the future is not done,
    called at once when it is. *)
Definition add_done_callback (f : Future) : Future :=
  mkFuture (_state f) (_outcome f) (if done f then Due else Waiting).

(** *** class TaskManager *)

(** Futures are objects shared by the executor and [self._futures]:
    they live in a heap, and the object made by the [submit] call that
    drew [job_id] is stored at [job_id]. *)
Abbreviation addr := string.

Record TaskManager : Type := mkTaskManager {
  heap : gmap addr Future;
  _futures : gmap string addr;
  _results : gmap string dict;
}.

(** [TaskManager(...)] *)
Definition init : TaskManager := mkTaskManager ∅ ∅ ∅.

(** Lines 70-81: the result [_callback] computes from [fut.result()]. *)
Definition callback_result (o : outcome value) : dict :=
  match o with
  | Return (VDict result) => result
  | Return v =>
      <["success" := VBool false]>
      (<["error" := VStr ("Invalid result type <class '" +:+ type_name v +:+ "'>")]> ∅)
  | Raise exc =>
      <["success" := VBool false]>
      (<["error" := VStr exc]> ∅)
  end.

(** Lines 104-111 of [get_status], in its two parts: the reads under
    [self._lock] (104-106), and the tests of [future] and
    [future.done()] after the lock is released (107-111). *)
Definition get_status_locked (self : TaskManager) (job_id : string)
    : option addr * option dict :=
  (_futures self !! job_id, _results self !! job_id).

Definition get_status_report (self : TaskManager) (seen : option addr * option dict)
    : option string * option dict :=
  match fst seen with
  | None => (None, None)
  | Some future =>
      if from_option done false (heap self !! future)
      then (Some "finished", snd seen)
      else (Some "pending", None)
  end.

(** [get_status] when no other thread runs between its two parts. *)
Definition get_status (self : TaskManager) (job_id : string)
    : option string * option dict :=
  get_status_report self (get_status_locked self job_id).

(** Lines 139-147, [TaskManager.cancel(job_id)], up to the state change
    [Future.cancel()] makes under the future's condition: the state it
    leaves and the flag the call returns.  The callbacks that
    [Future.cancel()] then invokes in the calling thread are the step
    [Callback_run]; [cancel_call] below is the call as a whole. *)
Definition cancel (self : TaskManager) (job_id : string) : TaskManager * bool :=
  match _futures self !! job_id with
  | None => (self, false)
  | Some future =>
      match heap self !! future with
      | None => (self, false)
      | Some f =>
          let (f', cancelled) := future_cancel f in
          (mkTaskManager (<[future := f']> (heap self)) (_futures self) (_results self),
           cancelled)
      end
  end.

(** The atomic steps of the threads that share a [TaskManager]. *)
Inductive event : Type :=
| Submit_create (job_id : string)
  (** lines 64-65: [uuid.uuid4().hex] and [self._executor.submit(...)] *)
| Submit_register (job_id : string)
  (** lines 66-67: [self._futures[job_id] = future] *)
| Submit_add_callback (job_id : string)
  (** line 84: [future.add_done_callback(_callback)] *)
| Worker_claim (future : addr)
  (** a pool thread takes the work item of the future *)
| Worker_finish (future : addr) (o : outcome value)
  (** the submitted call has returned or raised in the pool thread *)
| Callback_run (job_id : string)
  (** lines 70-83: [_callback(fut)] up to its store *)
| Cancel (job_id : string).
  (** [TaskManager.cancel(job_id)] *)

Definition update_future (self : TaskManager) (future : addr)
    (change : Future -> option Future) : option TaskManager :=
  f ← heap self !! future;
  f' ← change f;
  Some (mkTaskManager (<[future := f']> (heap self)) (_futures self) (_results self)).

(** One atomic step; [None] when the step cannot happen in this state:
    [uuid4] draws an identifier no earlier call drew, the statements of
    one [submit] call run in program order, a work item is taken from the
    queue once, and a callback runs when its future is done. *)
Definition step (self : TaskManager) (ev : event) : option TaskManager :=
  match ev with
  | Submit_create job_id =>
      match heap self !! job_id with
      | None =>
          Some (mkTaskManager (<[job_id := mkFuture PENDING None NotAdded]> (heap self))
                              (_futures self) (_results self))
      | Some _ => None
      end
  | Submit_register job_id =>
      match heap self !! job_id, _futures self !! job_id with
      | Some _, None =>
          Some (mkTaskManager (heap self) (<[job_id := job_id]> (_futures self))
                              (_results self))
      | _, _ => None
      end
  | Submit_add_callback job_id =>
      future ← _futures self !! job_id;
      update_future self future
        (fun f => match _done_callback f with
                  | NotAdded => Some (add_done_callback f)
                  | _ => None
                  end)
  | Worker_claim future =>
      update_future self future set_running_or_notify_cancel
  | Worker_finish future o =>
      update_future self future (set_outcome o)
  | Callback_run job_id =>
      f ← heap self !! job_id;
      match _done_callback f with
      | Due =>
          o ← future_result f;
          Some (mkTaskManager
                  (<[job_id := mkFuture (_state f) (_outcome f) Ran]> (heap self))
                  (_futures self)
                  (<[job_id := callback_result o]> (_results self)))
      | _ => None
      end
  | Cancel job_id => Some (fst (cancel self job_id))
  end.

(** A schedule of atomic steps, run from a given state. *)
Fixpoint exec (self : TaskManager) (evs : list event) : option TaskManager :=
  match evs with
  | [] => Some self
  | ev :: evs => self' ← step self ev; exec self' evs
  end.

(** [TaskManager.cancel(job_id)] as a whole call, when no other thread
    runs during it.  For a pending future [Future.cancel()] changes the
    state and then calls [self._invoke_callbacks()] in the calling
    thread: a [_callback] the future holds has run, up to its store at
    line 83, when [cancel] returns.  For a future in any other state
    nothing is invoked. *)
Definition cancel_call (self : TaskManager) (job_id : string) : TaskManager * bool :=
  match _futures self !! job_id with
  | None => (self, false)
  | Some future =>
      match heap self !! future with
      | None => (self, false)
      | Some f =>
          let (self', cancelled) := cancel self job_id in
          match _state f with
          | PENDING => (default self' (step self' (Callback_run future)), cancelled)
          | _ => (self', cancelled)
          end
      end
  end.

(** *** Vocabulary for the statements *)

(** The future object [self._futures[job_id]] refers to. *)
Definition future_of (self : TaskManager) (job_id : string) : option Future :=
  future ← _futures self !! job_id; heap self !! future.

(** [submit] has stored [job_id] in [self._futures] during the schedule. *)
Definition issued (evs : list event) (job_id : string) : bool :=
  existsb (fun ev => match ev with
                     | Submit_register j => String.eqb j job_id
                     | _ => false
                     end) evs.

(** How many times the schedule stores a result for [job_id]. *)
Definition stores (evs : list event) (job_id : string) : nat :=
  length (List.filter (fun ev => match ev with
                                 | Callback_run j => String.eqb j job_id
                                 | _ => false
                                 end) evs).

Definition is_running (self : TaskManager) (future : addr) : bool :=
  match heap self !! future with
  | Some f => match _state f with RUNNING => true | _ => false end
  | None => false
  end.

(** Along the schedule, a pool thread was at some point executing the
    work of the future. *)
Fixpoint ever_running (self : TaskManager) (evs : list event) (future : addr) : bool :=
  is_running self future ||
  match evs with
  | [] => false
  | ev :: evs =>
      match step self ev with
      | Some self' => ever_running self' evs future
      | None => false
      end
  end.

(** The change an event makes to the future at address [b]. *)
Inductive future_change (b : addr) : event -> option Future -> option Future -> Prop :=
| change_none ev (x : option Future) : future_change b ev x x
| change_created :
    future_change b (Submit_create b) None (Some (mkFuture PENDING None NotAdded))
| change_callback_added j (f : Future) :
    _done_callback f = NotAdded ->
    future_change b (Submit_add_callback j) (Some f) (Some (add_done_callback f))
| change_claimed (f f' : Future) :
    set_running_or_notify_cancel f = Some f' ->
    future_change b (Worker_claim b) (Some f) (Some f')
| change_finished (f f' : Future) (o : outcome value) :
    set_outcome o f = Some f' ->
    future_change b (Worker_finish b o) (Some f) (Some f')
| change_callback_ran (f : Future) (o : outcome value) :
    _done_callback f = Due ->
    future_result f = Some o ->
    future_change b (Callback_run b) (Some f)
                  (Some (mkFuture (_state f) (_outcome f) Ran))
| change_cancel j (f : Future) :
    future_change b (Cancel j) (Some f) (Some (fst (future_cancel f))).

(** Every entry of [self._futures] refers to the future made by the
    [submit] call of its key. *)
Definition futures_inv (self : TaskManager) : Prop :=
  forall job_id a, _futures self !! job_id = Some a -> a = job_id.

(** Once the callback of a job has returned, the future is done and
    [self._results] holds what the callback computes from it. *)
Definition callback_inv (self : TaskManager) : Prop :=
  forall job_id f,
    heap self !! job_id = Some f ->
    _done_callback f = Ran ->
    exists o, future_result f = Some o /\
              _results self !! job_id = Some (callback_result o).

(** 1 for a future whose callback has returned, 0 otherwise. *)
Definition is_ran (x : option Future) : nat :=
  match x with
  | Some f => match _done_callback f with Ran => 1 | _ => 0 end
  | None => 0
  end.

(** 1 when the callback of the job has returned, 0 before. *)
Definition ran_count (self : TaskManager) (job_id : string) : nat :=
  is_ran (heap self !! job_id).

(** A pool thread has begun to execute the work of the future. *)
Definition has_started (x : option Future) : bool :=
  match x with
  | Some f => match _state f with RUNNING | FINISHED => true | _ => false end
  | None => false
  end.

Definition is_cancelled (x : option Future) : bool :=
  match x with
  | Some f =>
      match _state f with
      | CANCELLED | CANCELLED_AND_NOTIFIED => true
      | _ => false
      end
  | None => false
  end.

(** *** [TaskManager.list_jobs] *)

(** Lines 124-128: the entry [list_jobs] builds from what [get_status]
    returned for one job. *)
Definition job_entry (seen : option string * option dict) : dict :=
  let entry : dict := <["status" := from_option VStr VNone (fst seen)]> ∅ in
  match fst seen with
  | Some status =>
      if String.eqb status "finished"
      then <["result" := from_option VDict VNone (snd seen)]> entry
      else entry
  | None => entry
  end.

(** Lines 119-129, when no other thread runs during the call: the keys
    of [self._futures] are listed under the lock, then [get_status] is
    called for each. *)
Definition list_jobs (self : TaskManager) : gmap string dict :=
  let job_ids := (map_to_list (_futures self)).*1 in
  foldl (fun jobs job_id => <[job_id := job_entry (get_status self job_id)]> jobs)
        ∅ job_ids.

(** *** More vocabulary for the statements *)

(** How far a job has come, as [get_status] reports it. *)
Definition status_rank (status : option string) : nat :=
  match status with
  | None => 0
  | Some s => if String.eqb s "finished" then 2 else 1
  end.

(** A result is stored only by a callback that has returned. *)
Definition results_inv (self : TaskManager) : Prop :=
  forall job_id r, _results self !! job_id = Some r ->
                   is_ran (heap self !! job_id) = 1.

End Tasks.

(** ** backend/app.py: the endpoints over the task manager *)

Module App.

Import Tasks.

(** What a view returns: the JSON body and the HTTP status code. *)
Definition response : Type := value * nat.

(** A result as JSON: [null] for [None]. *)
Definition json_of (result : option dict) : value :=
  from_option VDict VNone result.

Definition not_found : response :=
  (VDict (<["error" := VStr "Job not found"]> ∅), 404).

Definition pending : response :=
  (VDict (<["status" := VStr "pending"]> ∅), 200).

(** Lines 127-140: [GET /status/<job_id>]. *)
Definition get_status (task_manager : TaskManager) (job_id : string) : response :=
  let (status, result) := Tasks.get_status task_manager job_id in
  match status with
  | None => not_found
  | Some st =>
      if String.eqb st "pending" then pending
      else (VDict (<["status" := VStr "finished"]>
                  (<["result" := json_of result]> ∅)), 200)
  end.

(** Lines 144-152: [GET /tasks]. *)
Definition list_tasks (task_manager : TaskManager) : response :=
  (VDict (VDict <$> list_jobs task_manager), 200).

(** Lines 156-168: [POST /cancel/<job_id>]; the task manager after the
    call and the response. *)
Definition cancel_job (task_manager : TaskManager) (job_id : string)
    : TaskManager * response :=
  let (status, _) := Tasks.get_status task_manager job_id in
  match status with
  | None => (task_manager, not_found)
  | Some _ =>
      let (task_manager', cancelled) := Tasks.cancel task_manager job_id in
      (task_manager', (VDict (<["cancelled" := VBool cancelled]> ∅), 200))
  end.

(** Lines 197-216: [GET /data/<job_id>], with the module's
    [scraped_data] dictionary. *)
Definition get_data (scraped_data : gmap string dict) (task_manager : TaskManager)
    (job_id : string) : response :=
  let data := scraped_data !! job_id in
  if truthy (json_of data) then (json_of data, 200)
  else
    let (status, result) := Tasks.get_status task_manager job_id in
    match status with
    | None => not_found
    | Some st =>
        if String.eqb st "pending" then pending
        else (json_of result, 200)
    end.

End App.

(** ** backend/utils.py: proxy configuration *)

Module Utils.

(** [bool(x)] for [x] a string or [None]. *)
Definition is_set (x : option string) : bool :=
  match x with
  | Some (String _ _) => true
  | _ => false
  end.

(** [x or y] *)
Definition py_or (x y : option string) : option string :=
  if is_set x then x else y.

(** [proxies[scheme] = proxy], for a proxy that is set. *)
Definition set_proxy (scheme : string) (proxy : option string)
    (proxies : gmap string string) : gmap string string :=
  match proxy with
  | Some p => <[scheme := p]> proxies
  | None => proxies
  end.

(** Lines 112-144: [get_proxy_dict()], reading [os.environ]. *)
Definition get_proxy_dict (environ : gmap string string)
    : option (gmap string string) :=
  let http_proxy := py_or (environ !! "SCRAPER_HTTP_PROXY") (environ !! "HTTP_PROXY") in
  let https_proxy := py_or (environ !! "SCRAPER_HTTPS_PROXY") (environ !! "HTTPS_PROXY") in
  if negb (is_set http_proxy) && negb (is_set https_proxy) then None
  else
    let proxies : gmap string string := ∅ in
    let proxies := if is_set http_proxy
                   then set_proxy "http" http_proxy proxies else proxies in
    let proxies := if is_set https_proxy
                   then set_proxy "https" https_proxy proxies else proxies in
    let proxies := if negb (is_set https_proxy) && is_set http_proxy
                   then set_proxy "https" http_proxy proxies else proxies in
    let proxies := if negb (is_set http_proxy) && is_set https_proxy
                   then set_proxy "http" https_proxy proxies else proxies in
    Some proxies.

(** The first of the named variables that is set to a non-empty string. *)
Fixpoint first_set (environ : gmap string string) (names : list string)
    : option string :=
  match names with
  | [] => None
  | n :: rest =>
      if is_set (environ !! n) then environ !! n else first_set environ rest
  end.

End Utils.

(** ** backend/scrapers/file_scraper.py *)

Module FileScraper.

Import Scrapers.

(** Sequencing of calls that may raise: the first exception ends the
    [try] block. *)
#[export] Instance outcome_bind : MBind outcome :=
  fun A B (k : A -> outcome B) (x : outcome A) =>
    match x with
    | Return a => k a
    | Raise exc => Raise exc
    end.

(** [needle in hay] on strings *)
Fixpoint contains (needle hay : string) : bool :=
  String.prefix needle hay ||
  match hay with
  | EmptyString => false
  | String _ rest => contains needle rest
  end.

(** [s.endswith(suffix)] *)
Definition ends_with (s suffix : string) : bool :=
  String.eqb
    (String.substring (String.length s - String.length suffix)
                      (String.length suffix) s)
    suffix.

(** [s.split(sep)[0]]: the text before the first [sep]. *)
Fixpoint before (sep : ascii) (s : string) : string :=
  match s with
  | EmptyString => EmptyString
  | String c rest =>
      if Ascii.eqb c sep then EmptyString else String c (before sep rest)
  end.

(** [s.split(sep)[-1]]: the text after the last [sep]. *)
Fixpoint after_last (sep : ascii) (s : string) : string :=
  match s with
  | EmptyString => EmptyString
  | String c rest =>
      if contains (String sep EmptyString) rest then after_last sep rest
      else if Ascii.eqb c sep then rest
      else s
  end.

(** What [requests.get] returns, as far as [scrape] reads it:
    [raise_for_status()] raises an error with this text, or passes; the
    [Content-Type] header, if any; [resp.content], whose download may
    raise. *)
Record Response : Type := mkResponse {
  status_error : option string;
  content_type_header : option string;
  content : outcome (list Byte.byte);
}.

(** The library calls of the module. *)
Record Library : Type := mkLibrary {
  (** [requests.get(url, headers={'User-Agent': ua}, stream=True,
      timeout=30, proxies=proxies)] *)
  requests_get : string -> string -> gmap string string -> outcome Response;
  (** [urlparse(url).path] *)
  urlparse_path : string -> outcome string;
  (** [unquote(s)] *)
  unquote : string -> string;
  (** [s.lower()] *)
  lower : string -> string;
  (** [base64.b64encode(content).decode('ascii')] *)
  b64encode : list Byte.byte -> string;
  (** lines 123-125: the import of pdfminer and [extract_text(bytes(content))] *)
  pdf_extract_text : list Byte.byte -> outcome string;
  (** lines 127-131: the import of docx and the paragraphs of the
      document, joined by newlines *)
  docx_text : list Byte.byte -> outcome string;
}.

(** Lines 60-78. *)
Definition _file_extensions : list string :=
  [".jpg"; ".jpeg"; ".png"; ".gif"; ".bmp"; ".svg"; ".webp"; ".tif"; ".tiff";
   ".heic"; ".heif"; ".raw";
   ".mp4"; ".mkv"; ".mov"; ".avi"; ".flv"; ".webm"; ".wmv"; ".ts"; ".m2ts";
   ".mpeg"; ".mpg"; ".3gp"; ".3g2"; ".m4v"; ".ogv"; ".ogm"; ".m4p";
   ".mp3"; ".wav"; ".flac"; ".aac"; ".ogg"; ".oga"; ".opus"; ".m4a"; ".m4b";
   ".pdf"; ".doc"; ".docx"; ".xls"; ".xlsx"; ".ppt"; ".pptx"; ".txt"; ".rtf";
   ".odt"; ".ods"; ".odp"; ".epub"; ".md";
   ".zip"; ".rar"; ".7z"; ".tar"; ".gz"; ".bz2"; ".xz"; ".tgz"; ".tar.gz";
   ".tar.bz2"; ".tar.xz"; ".iso";
   ".exe"; ".apk"; ".dmg"; ".msi";
   ".json"; ".csv"; ".yaml"; ".yml"; ".xml"; ".sql"].

(** class [FileScraper]: the attributes [__init__] sets. *)
Record FileScraper : Type := mkFileScraper {
  user_agent : string;
  max_bytes : Z;
}.

Section WithLibrary.

Variable lib : Library.

(** [os.environ], read by [get_proxy_dict]. *)
Variable environ : gmap string string.

(** Lines 39-42: [_guess_filename(url)]. *)
Definition _guess_filename (url : string) : outcome string :=
  path ← urlparse_path lib url;
  let filename := after_last "/" path in
  match unquote lib filename with
  | EmptyString => Return "downloaded_file"
  | name => Return name
  end.

(** Lines 85-91: [FileScraper.can_handle(url)]. *)
Definition can_handle (url : string) : outcome bool :=
  path ← urlparse_path lib url;
  Return (existsb (ends_with (lower lib path)) _file_extensions).

(** Lines 94-100: the dictionary [scrape] starts from. *)
Definition initial_result : dict :=
  <["success" := VBool false]>
  (<["text" := VStr EmptyString]>
  (<["images" := VList []]>
  (<["links" := VList []]>
  (<["metadata" := VDict ∅]> ∅)))).

(** Lines 120-135: the text extracted from a PDF or Word file, empty
    when the file is neither or when the extraction raises. *)
Definition extracted_text (file_type filename : string) (data : list Byte.byte)
    : string :=
  let attempt : outcome string :=
    if String.eqb file_type "application/pdf"
       || ends_with (lower lib filename) ".pdf"
    then pdf_extract_text lib data
    else if String.eqb file_type
              "application/vnd.openxmlformats-officedocument.wordprocessingml.document"
            || String.eqb file_type "application/msword"
            || ends_with (lower lib filename) ".docx"
            || ends_with (lower lib filename) ".doc"
    then docx_text lib data
    else Return EmptyString in
  match attempt with
  | Return text => text
  | Raise _ => EmptyString
  end.

(** Lines 103-144: the body of the [try] block of [scrape]. *)
Definition download (self : FileScraper) (url : string) : outcome dict :=
  let proxies := default ∅ (Utils.get_proxy_dict environ) in
  resp ← requests_get lib url (user_agent self) proxies;
  _ ← match status_error resp with
      | Some exc => Raise exc
      | None => Return tt
      end;
  let content_type := default EmptyString (content_type_header resp) in
  if contains "text/html" content_type then
    Return (<["error" := VStr "Resource appears to be HTML"]> initial_result)
  else
    data ← content resp;
    if (Z.of_nat (length data) >? max_bytes self)%Z then
      Return (<["error" := VStr ("File exceeds " +:+ pretty (max_bytes self)
                                   +:+ " bytes limit")]> initial_result)
    else
      let b64_content := b64encode lib data in
      filename ← _guess_filename url;
      let file_type := before ";" content_type in
      Return
        (<["success" := VBool true]>
        (<["file_content" := VStr b64_content]>
        (<["file_name" := VStr filename]>
        (<["file_type" := VStr file_type]>
        (<["text" := VStr (extracted_text file_type filename data)]>
        (<["metadata" := VDict (<["scraper" := VStr "file"]> ∅)]>
           initial_result)))))).

(** Lines 93-148: [FileScraper.scrape(url)]. *)
Definition scrape (self : FileScraper) (url : string) : dict :=
  match download self url with
  | Return result => result
  | Raise exc =>
      <["error" := VStr ("Failed to download file: " +:+ exc)]> initial_result
  end.

(** An instance of [FileScraper] as the chain sees it. *)
Definition as_scraper (self : FileScraper) : Scraper :=
  mkScraper "file" can_handle (fun url => Return (scrape self url)).

End WithLibrary.

End FileScraper.

(** ** backend/scheduler.py *)

Module Scheduler.

Section WithTypes.

(** The callables and the intervals (floats) given to [add_job]; the
    scheduler stores them and passes them on. *)
Context {Func Interval : Type}.

(** A [threading.Timer] that has been started: waiting for its
    interval; cancelled while waiting; in [job._run] past the test of
    [_running], about to call the job's function; in the job's
    function; over. *)
Inductive timer_state : Type :=
| Armed
| Cancelled
| Checked
| InFunction
| Over.

(** [threading.Timer(interval, job._run)] *)
Record Timer : Type := mkTimer {
  t_interval : Interval;
  t_job : nat;
  t_state : timer_state;
}.

(** class [ScheduledJob] *)
Record ScheduledJob : Type := mkJob {
  func : Func;
  interval : Interval;
  _timer : option nat;
  _running : bool;
}.

(** The objects of the scheduler: the [ScheduledJob] and [Timer]
    objects that exist, [ScheduleManager._jobs], and the calls of job
    functions made so far (which job's function, latest first). *)
Record World : Type := mkWorld {
  job_heap : gmap nat ScheduledJob;
  timer_heap : gmap nat Timer;
  _jobs : gmap string nat;
  calls : list nat;
}.

(** [ScheduleManager()] *)
Definition init : World := mkWorld ∅ ∅ ∅ [].

(** [timer.cancel()]: stops a timer that is still waiting. *)
Definition timer_cancel (tm : Timer) : Timer :=
  match t_state tm with
  | Armed => mkTimer (t_interval tm) (t_job tm) Cancelled
  | _ => tm
  end.

(** Lines 42-47: [job.start()] for the job object [j]. *)
Definition start (w : World) (j : nat) : World :=
  match job_heap w !! j with
  | Some job =>
      if _running job then w
      else
        let t := fresh (dom (timer_heap w)) in
        mkWorld (<[j := mkJob (func job) (interval job) (Some t) true]> (job_heap w))
                (<[t := mkTimer (interval job) j Armed]> (timer_heap w))
                (_jobs w) (calls w)
  | None => w
  end.

(** Lines 49-53: [job.stop()] for the job object [j]. *)
Definition stop (w : World) (j : nat) : World :=
  match job_heap w !! j with
  | Some job =>
      mkWorld (<[j := mkJob (func job) (interval job) None false]> (job_heap w))
              (match _timer job with
               | Some t => alter timer_cancel t (timer_heap w)
               | None => timer_heap w
               end)
              (_jobs w) (calls w)
  | None => w
  end.

(** Lines 62-78: [ScheduleManager.add_job(name, func, interval)]. *)
Definition add_job (w : World) (name : string) (f : Func) (i : Interval)
    : outcome World :=
  match _jobs w !! name with
  | Some _ => Raise ("Job " +:+ name +:+ " already exists")
  | None =>
      let j := fresh (dom (job_heap w)) in
      let w := mkWorld (<[j := mkJob f i None false]> (job_heap w)) (timer_heap w)
                       (<[name := j]> (_jobs w)) (calls w) in
      Return (start w j)
  end.

(** Lines 80-84: [ScheduleManager.remove_job(name)]. *)
Definition remove_job (w : World) (name : string) : World :=
  match _jobs w !! name with
  | Some j =>
      stop (mkWorld (job_heap w) (timer_heap w) (delete name (_jobs w)) (calls w)) j
  | None => w
  end.

(** Lines 86-90: [ScheduleManager.stop_all()]. *)
Definition stop_all (w : World) : World :=
  let w := foldl stop w (map_to_list (_jobs w)).*2 in
  mkWorld (job_heap w) (timer_heap w) ∅ (calls w).

(** Lines 33-35: timer [t] has waited for its interval and calls
    [job._run], which returns at once for a job that is not running. *)
Definition fire (w : World) (t : nat) : option World :=
  tm ← timer_heap w !! t;
  job ← job_heap w !! t_job tm;
  match t_state tm with
  | Armed =>
      let next := if _running job then Checked else Over in
      Some (mkWorld (job_heap w)
                    (<[t := mkTimer (t_interval tm) (t_job tm) next]> (timer_heap w))
                    (_jobs w) (calls w))
  | _ => None
  end.

(** Lines 36-37: [self.func()] is called in the thread of timer [t]. *)
Definition call (w : World) (t : nat) : option World :=
  tm ← timer_heap w !! t;
  match t_state tm with
  | Checked =>
      Some (mkWorld (job_heap w)
                    (<[t := mkTimer (t_interval tm) (t_job tm) InFunction]> (timer_heap w))
                    (_jobs w) (t_job tm :: calls w))
  | _ => None
  end.

(** Lines 38-40: the job's function has returned or raised in the
    thread of timer [t]; the [finally] block starts the next timer. *)
Definition rearm (w : World) (t : nat) : option World :=
  tm ← timer_heap w !! t;
  job ← job_heap w !! t_job tm;
  match t_state tm with
  | InFunction =>
      let timers := <[t := mkTimer (t_interval tm) (t_job tm) Over]> (timer_heap w) in
      let t' := fresh (dom timers) in
      Some (mkWorld
              (<[t_job tm := mkJob (func job) (interval job) (Some t') (_running job)]>
                 (job_heap w))
              (<[t' := mkTimer (interval job) (t_job tm) Armed]> timers)
              (_jobs w) (calls w))
  | _ => None
  end.

(** The steps of the thread that uses the manager and of the timer
    threads. *)
Inductive event : Type :=
| Add_job (name : string) (f : Func) (i : Interval)
| Remove_job (name : string)
| Stop_all
| Fire (t : nat)
| Call (t : nat)
| Rearm (t : nat).

(** One step; [None] when it cannot happen.  An [add_job] that raises
    leaves the state as it is. *)
Definition step (w : World) (ev : event) : option World :=
  match ev with
  | Add_job name f i =>
      match add_job w name f i with
      | Return w' => Some w'
      | Raise _ => Some w
      end
  | Remove_job name => Some (remove_job w name)
  | Stop_all => Some (stop_all w)
  | Fire t => fire w t
  | Call t => call w t
  | Rearm t => rearm w t
  end.

Fixpoint exec (w : World) (evs : list event) : option World :=
  match evs with
  | [] => Some w
  | ev :: evs => w' ← step w ev; exec w' evs
  end.

(** *** Vocabulary for the statements *)

(** How often the function of job [j] has been called. *)
Definition calls_of (w : World) (j : nat) : nat :=
  count_occ Nat.eq_dec (calls w) j.

(** The job object exists and is not running. *)
Definition stopped (w : World) (j : nat) : Prop :=
  exists job, job_heap w !! j = Some job /\ _running job = false.

(** The timer is waiting, or its thread is in [job._run] on the way to
    the next timer. *)
Definition is_live (st : timer_state) : bool :=
  match st with
  | Armed | Checked | InFunction => true
  | Cancelled | Over => false
  end.

(** Timer [t] is a live timer of job [j]. *)
Definition live_timer (w : World) (j : nat) (t : nat) : Prop :=
  exists tm, timer_heap w !! t = Some tm /\ t_job tm = j /\
             is_live (t_state tm) = true.

(** No timer thread of job [j] stands between the test of [_running]
    and the call of the job's function. *)
Definition none_checked (w : World) (j : nat) : Prop :=
  forall t tm, timer_heap w !! t = Some tm -> t_job tm = j ->
               t_state tm <> Checked.

(** The job is stopped and no timer thread is about to call its
    function. *)
Definition quiet (w : World) (j : nat) : Prop :=
  stopped w j /\ none_checked w j.

(** No timer of job [j] has fired: its only timer is [t], which is
    waiting or was cancelled while waiting. *)
Definition unfired (w : World) (j t : nat) : Prop :=
  forall t' tm, timer_heap w !! t' = Some tm -> t_job tm = j ->
                t' = t /\ (t_state tm = Armed \/ t_state tm = Cancelled).

(** Job [j] is new: it exists, no name but [name] refers to it, and
    none of its timers has fired. *)
Definition new_job (w : World) (name : string) (j t : nat) : Prop :=
  is_Some (job_heap w !! j) /\
  (forall n, _jobs w !! n = Some j -> n = name) /\
  unfired w j t.

(** The registry and the objects fit together: a registered job exists,
    is running and has a live timer; a job is registered under one name
    only; a job that is not registered is not running; the timer a job
    holds is a timer of that job; the job of every timer exists. *)
Definition consistent (w : World) : Prop :=
  (forall name j, _jobs w !! name = Some j ->
     (exists job, job_heap w !! j = Some job /\ _running job = true) /\
     (exists t, live_timer w j t)) /\
  (forall n1 n2 j, _jobs w !! n1 = Some j -> _jobs w !! n2 = Some j -> n1 = n2) /\
  (forall j job, job_heap w !! j = Some job -> _running job = true ->
     exists name, _jobs w !! name = Some j) /\
  (forall j job t, job_heap w !! j = Some job -> _timer job = Some t ->
     exists tm, timer_heap w !! t = Some tm /\ t_job tm = j) /\
  (forall t tm, timer_heap w !! t = Some tm -> is_Some (job_heap w !! t_job tm)).

End WithTypes.

Arguments Timer : clear implicits.
Arguments ScheduledJob : clear implicits.
Arguments World : clear implicits.
Arguments event : clear implicits.

End Scheduler.

(** ** Scrapers, results and schedules used in the examples *)

Module Examples.

Import Scrapers Tasks.

(** A [str()] for the examples: exact on strings, [None] and booleans,
    the only values the examples format. *)
Definition str_of (v : value) : string :=
  match v with
  | VStr s => s
  | VNone => "None"
  | VBool true => "True"
  | VBool false => "False"
  | _ => "<" +:+ type_name v +:+ ">"
  end.

Definition page : string := "https://example.com/article".

(** The dictionary every scraper starts from. *)
Definition blank : dict :=
  <["success" := VBool false]>
  (<["text" := VStr EmptyString]>
  (<["images" := VList []]>
  (<["links" := VList []]>
  (<["metadata" := VDict ∅]> ∅)))).

(** [FileScraper] on a URL that serves HTML: [can_handle] finds no file
    extension, [scrape] reports the content type. *)
Definition file_on_html : Scraper :=
  mkScraper "file"
    (fun _ => Return false)
    (fun _ => Return (<["error" := VStr "Resource appears to be HTML"]> blank)).

(** [FileScraper] on a URL that serves a download: the result carries
    the scraper's own [metadata]. *)
Definition download : dict :=
  <["success" := VBool true]>
  (<["file_content" := VStr "aGVsbG8="]>
  (<["file_name" := VStr "article"]>
  (<["file_type" := VStr "application/octet-stream"]>
  (<["metadata" := VDict (<["scraper" := VStr "file"]> ∅)]> blank)))).

Definition file_on_download : Scraper :=
  mkScraper "file" (fun _ => Return false) (fun _ => Return download).

(** [ApiScraper]: declines every URL. *)
Definition api : Scraper :=
  mkScraper "api"
    (fun _ => Return false)
    (fun _ => Return (<["error" := VStr "ApiScraper not implemented for this domain"]> blank)).

(** [StaticScraper] on a page it parses. *)
Definition parsed : dict :=
  <["success" := VBool true]>
  (<["text" := VStr "Hello"]>
  (<["metadata" := VDict (<["title" := VStr "Example"]>
                         (<["description" := VStr EmptyString]>
                         (<["keywords" := VStr EmptyString]>
                         (<["author" := VStr EmptyString]> ∅))))]> blank)).

Definition static_ok : Scraper :=
  mkScraper "static" (fun _ => Return true) (fun _ => Return parsed).

(** [StaticScraper] when the request fails. *)
Definition static_down : Scraper :=
  mkScraper "static"
    (fun _ => Return true)
    (fun _ => Return (<["error" := VStr "Request failed: timed out"]> blank)).

(** A scraper that is never reached in the examples. *)
Definition dynamic : Scraper :=
  mkScraper "dynamic" (fun _ => Return true) (fun _ => Raise "no browser").

(** A custom scraper whose failure result has no [error] entry, which
    base.py allows ([error] is optional). *)
Definition quiet : Scraper :=
  mkScraper "quiet" (fun _ => Return true) (fun _ => Return blank).

(** A custom scraper whose successful result has [metadata] set to
    [None]. *)
Definition careless : Scraper :=
  mkScraper "careless"
    (fun _ => Return true)
    (fun _ => Return (<["success" := VBool true]> (<["metadata" := VNone]> blank))).

(** A custom scraper whose [scrape] ends without a [return]. *)
Definition forgetful : Member :=
  mkMember "forgetful" (fun _ => Return true) (fun _ => Return VNone).

(** One job, from [submit] to the point where it waits in the queue. *)
Definition queued : list event :=
  [Submit_create "job1"; Submit_register "job1"; Submit_add_callback "job1"].

(** The job has been taken by a pool thread. *)
Definition claimed : list event := queued ++ [Worker_claim "job1"].

(** The job's work has returned [parsed]; its callback has not run yet. *)
Definition completing : list event :=
  claimed ++ [Worker_finish "job1" (Return (VDict parsed))].

(** The job's work has returned [parsed] and the callback has stored it. *)
Definition completed : list event := completing ++ [Callback_run "job1"].

(** The job's work has returned [None] and the callback has run. *)
Definition returned_none : list event :=
  claimed ++ [Worker_finish "job1" (Return VNone); Callback_run "job1"].

(** The job was cancelled in the queue; the callback has run, and a pool
    thread has later found the cancelled work item. *)
Definition cancelled_then_polled : list event :=
  [Callback_run "job1"; Worker_claim "job1"].

(** The state a schedule leads to from a fresh [TaskManager]. *)
Definition state_after (evs : list event) : TaskManager :=
  default init (exec init evs).

(** The job was cancelled in the queue and its callback has returned. *)
Definition cancelled : list event :=
  queued ++ [Cancel "job1"; Callback_run "job1"].

(** What happens after the first job is over: a cancel request for it
    and a second [submit]. *)
Definition afterwards : list event :=
  [Cancel "job1"; Submit_create "job2"; Submit_register "job2"].

(** A class whose constructor raises, and one whose constructor works. *)
Definition broken_class : string -> outcome Scraper :=
  fun _ => Raise "No module named 'selenium'".

Definition static_class : string -> outcome Scraper :=
  fun _ => Return static_ok.

Definition agent : string := "WebScraperBot/1.0".

(** The environment of the docstring of [get_proxy_dict]. *)
Definition environ : gmap string string :=
  <["SCRAPER_HTTP_PROXY" := "http://localhost:3128"]> ∅.

(** A server that answers every request with an HTML page, on a
    machine without the PDF and Word libraries. *)
Definition html_server : FileScraper.Library :=
  FileScraper.mkLibrary
    (fun _ _ _ => Return (FileScraper.mkResponse
                            None (Some "text/html; charset=utf-8") (Return [])))
    (fun _ => Return "/article")
    (fun s => s)
    (fun s => s)
    (fun _ => EmptyString)
    (fun _ => Raise "No module named 'pdfminer'")
    (fun _ => Raise "No module named 'docx'").

Definition file_scraper : FileScraper.FileScraper :=
  FileScraper.mkFileScraper agent (20 * 1024 * 1024).

(** Two recurring jobs, given by the names of their functions and
    their intervals in seconds. *)
Definition two_jobs : list (Scheduler.event string Z) :=
  [Scheduler.Add_job "news" "refresh_news" 60%Z;
   Scheduler.Add_job "prices" "refresh_prices" 300%Z].

Definition scheduler_after (evs : list (Scheduler.event string Z))
    : Scheduler.World string Z :=
  default Scheduler.init (Scheduler.exec Scheduler.init evs).

End Examples.

(** * Properties of the strategy chain *)

Import Scrapers.

Section ChainProperties.

Variable py_str : value -> string.

Implicit Types (scraper s : Scraper) (url : string) (errors : list string).

Lemma after_nil (r : run) : after [] r = r.
Proof. by destruct r. Qed.

Lemma after_after (l1 l2 : list call) (r : run) :
  after l1 (after l2 r) = after (l1 ++ l2) r.
Proof. unfold after; simpl. by rewrite app_assoc. Qed.

Lemma guard_go i s url : snd (guard i s url) = attempted s url.
Proof.
  unfold attempted, guard.
  destruct (negb _); [|done]. by destruct (can_handle s url).
Qed.

(** One iteration over a scraper that does not succeed. *)
Lemma scrape_loop_pass s rest i url errors :
  succeeds s url = false ->
  scrape_loop py_str (s :: rest) i url errors =
  after (calls_of i s url)
        (scrape_loop py_str rest (S i) url (failure_of py_str s url errors)).
Proof.
  unfold succeeds, calls_of, failure_of. intros Hfail. simpl.
  rewrite <- (guard_go i) in *.
  destruct (guard i s url) as [asked go]; simpl in *.
  destruct go; simpl in *.
  - destruct (scrape s url) as [result|exc]; [|done].
    by rewrite Hfail.
  - by rewrite app_nil_r.
Qed.

(** One iteration over a scraper that succeeds. *)
Lemma scrape_loop_hit s rest i url errors result :
  attempted s url = true ->
  scrape s url = Return result ->
  truthy (dict_get "success" result) = true ->
  scrape_loop py_str (s :: rest) i url errors =
  (fst (guard i s url) ++ [Call_scrape i], forward_success (name s) result).
Proof.
  intros Hgo Hres Hok. simpl.
  rewrite <- (guard_go i) in Hgo.
  destruct (guard i s url) as [asked go]; simpl in *. subst go; simpl.
  by rewrite Hres, Hok.
Qed.

(** The loop over a prefix in which no scraper succeeds. *)
Lemma scrape_loop_passed passed rest i url errors :
  Forall (fun t => succeeds t url = false) passed ->
  scrape_loop py_str (passed ++ rest) i url errors =
  after (passed_log passed i url)
        (scrape_loop py_str rest (i + length passed) url
                     (passed_errors py_str passed url errors)).
Proof.
  intros Hall. revert i errors.
  induction Hall as [|s passed Hs _ IH]; intros i errors;
    cbn [app passed_log passed_errors length].
  - by rewrite after_nil, Nat.add_0_r.
  - rewrite (scrape_loop_pass _ _ _ _ _ Hs), IH, after_after.
    by replace (S i + length passed) with (i + S (length passed)) by lia.
Qed.

Lemma guard_calls i s url :
  fst (guard i s url) =
  if String.eqb (name s) "file" then [] else [Call_can_handle i].
Proof.
  unfold guard. destruct (String.eqb _ _); simpl; [done|].
  by destruct (can_handle s url).
Qed.

Lemma attempted_file s url : name s = "file" -> attempted s url = true.
Proof. unfold attempted, guard. by intros ->. Qed.

Lemma attempted_other s url :
  name s <> "file" -> attempted s url = true -> can_handle s url = Return true.
Proof.
  unfold attempted, guard. intros Hname.
  apply String.eqb_neq in Hname. rewrite Hname; simpl.
  destruct (can_handle s url) as [[]|]; simpl; congruence.
Qed.

(** The calls of the iteration at the head of the loop, and what
    follows them. *)
Lemma loop_head_calls s rest i url errors :
  fst (scrape_loop py_str (s :: rest) i url errors) =
  calls_of i s url ++
  (if succeeds s url then []
   else fst (scrape_loop py_str rest (S i) url (failure_of py_str s url errors))).
Proof.
  destruct (succeeds s url) eqn:Hs.
  - unfold succeeds in Hs. apply andb_true_iff in Hs as [Hgo Hok].
    destruct (scrape s url) as [result|] eqn:Hres; [|done].
    rewrite (scrape_loop_hit _ _ _ _ _ _ Hgo Hres Hok).
    unfold calls_of. rewrite Hgo. simpl. by rewrite app_nil_r.
  - by rewrite scrape_loop_pass.
Qed.

Lemma calls_of_index i s url c : c ∈ calls_of i s url -> call_index c = i.
Proof.
  unfold calls_of. rewrite guard_calls, elem_of_app.
  intros [Hc|Hc].
  - destruct (String.eqb _ _); [by apply elem_of_nil in Hc|].
    apply list_elem_of_singleton in Hc. by subst c.
  - destruct (attempted s url); [|by apply elem_of_nil in Hc].
    apply list_elem_of_singleton in Hc. by subst c.
Qed.

(** Every call of the loop is made on one of its scrapers. *)
Lemma loop_log_index chain i url errors c :
  c ∈ fst (scrape_loop py_str chain i url errors) ->
  i <= call_index c < i + length chain.
Proof.
  revert i errors. induction chain as [|s rest IH]; intros i errors.
  - simpl. by rewrite elem_of_nil.
  - rewrite loop_head_calls, elem_of_app. intros [Hc|Hc].
    + apply calls_of_index in Hc. simpl. lia.
    + destruct (succeeds s url); [by apply elem_of_nil in Hc|].
      apply IH in Hc. simpl. lia.
Qed.

(** A [scrape] call is made on a scraper that passed the guard. *)
Lemma loop_scrape_call chain i url errors j :
  Call_scrape j ∈ fst (scrape_loop py_str chain i url errors) ->
  i <= j /\ exists s, chain !! (j - i) = Some s /\ attempted s url = true.
Proof.
  revert i errors. induction chain as [|s rest IH]; intros i errors.
  - simpl. by rewrite elem_of_nil.
  - rewrite loop_head_calls, elem_of_app. intros [Hc|Hc].
    + pose proof (calls_of_index _ _ _ _ Hc) as Hi. simpl in Hi. subst j.
      split; [lia|]. exists s. rewrite Nat.sub_diag. split; [done|].
      unfold calls_of in Hc. rewrite guard_calls, elem_of_app in Hc.
      destruct (attempted s url); [done|].
      destruct Hc as [Hc|Hc]; [|by apply elem_of_nil in Hc].
      destruct (String.eqb _ _); [by apply elem_of_nil in Hc|].
      by apply list_elem_of_singleton in Hc.
    + destruct (succeeds s url); [by apply elem_of_nil in Hc|].
      apply IH in Hc as [Hle (t & Ht & Hgo)]. split; [lia|].
      exists t. split; [|done].
      replace (j - i) with (S (j - S i)) by lia. done.
Qed.

Lemma passed_log_index passed i url c :
  c ∈ passed_log passed i url -> i <= call_index c < i + length passed.
Proof.
  revert i. induction passed as [|s rest IH]; intros i; simpl.
  - by rewrite elem_of_nil.
  - rewrite elem_of_app. intros [Hc|Hc].
    + apply calls_of_index in Hc. lia.
    + apply IH in Hc. lia.
Qed.

(** Forwarding a well-formed successful result. *)
Lemma forward_success_ok scraper_name result :
  metadata_ok result = true ->
  forward_success scraper_name result =
  Return (<["metadata" := VDict (<["scraper" := VStr scraper_name]> (metadata_of result))]>
            result).
Proof.
  unfold metadata_ok, metadata_of, forward_success, setdefault, dict_get.
  destruct (result !! "metadata") as [v|] eqn:Hm.
  - destruct v; try done. intros _. by rewrite Hm.
  - intros _. rewrite lookup_insert_eq. simpl. by rewrite insert_insert_eq.
Qed.

(** The run of a chain up to and including its first success. *)
Lemma run_to_first_success self passed s rest url result :
  scrapers self = passed ++ s :: rest ->
  Forall (fun t => succeeds t url = false) passed ->
  attempted s url = true ->
  scrape s url = Return result ->
  truthy (dict_get "success" result) = true ->
  combined_scrape py_str self url =
  (passed_log passed 0 url ++ fst (guard (length passed) s url)
     ++ [Call_scrape (length passed)],
   forward_success (name s) result).
Proof.
  intros Hchain Hpassed Hgo Hres Hok.
  unfold combined_scrape. rewrite Hchain, (scrape_loop_passed _ _ _ _ _ Hpassed).
  by rewrite (scrape_loop_hit _ _ _ _ _ _ Hgo Hres Hok).
Qed.

(** C1. When the loop gets to a scraper that is called and returns a
    result whose [success] is true (no earlier scraper having
    succeeded), [CombinedScraper.scrape] returns that result with
    [metadata] holding the scraper's name under [scraper]; the call of
    that scraper's [scrape] is the last call made, and every call made is
    on that scraper or an earlier one, so no later scraper is invoked.
    The result's [metadata] entry is absent or a dictionary. *)
Theorem first_success_wins self passed s rest url result :
  scrapers self = passed ++ s :: rest ->
  Forall (fun t => succeeds t url = false) passed ->
  attempted s url = true ->
  scrape s url = Return result ->
  truthy (dict_get "success" result) = true ->
  metadata_ok result = true ->
  exists log metadata,
    combined_scrape py_str self url =
      (log, Return (<["metadata" := VDict metadata]> result)) /\
    metadata !! "scraper" = Some (VStr (name s)) /\
    last log = Some (Call_scrape (length passed)) /\
    Forall (fun c => call_index c <= length passed) log.
Proof.
  intros Hchain Hpassed Hgo Hres Hok Hmeta.
  eexists _, _. split; [|split; [|split]].
  - rewrite (run_to_first_success _ _ _ _ _ _ Hchain Hpassed Hgo Hres Hok).
    by rewrite (forward_success_ok _ _ Hmeta).
  - apply lookup_insert_eq.
  - by rewrite !app_assoc, last_snoc.
  - apply Forall_forall. intros c. rewrite !elem_of_app.
    intros [Hc|[Hc|Hc]].
    + apply passed_log_index in Hc. lia.
    + rewrite guard_calls in Hc. destruct (String.eqb _ _).
      * by apply elem_of_nil in Hc.
      * apply list_elem_of_singleton in Hc. by subst c.
    + apply list_elem_of_singleton in Hc. by subst c.
Qed.

(** C10. The result forwarded on success is the scraper's result with
    every key other than [metadata] unchanged; in [metadata] the
    [scraper] entry is the scraper's name, whatever was there before, and
    every other entry is unchanged. *)
Theorem forwarded_result_frame self passed s rest url result :
  scrapers self = passed ++ s :: rest ->
  Forall (fun t => succeeds t url = false) passed ->
  attempted s url = true ->
  scrape s url = Return result ->
  truthy (dict_get "success" result) = true ->
  metadata_ok result = true ->
  exists forwarded metadata,
    snd (combined_scrape py_str self url) = Return forwarded /\
    (forall k, k <> "metadata" -> forwarded !! k = result !! k) /\
    forwarded !! "metadata" = Some (VDict metadata) /\
    metadata !! "scraper" = Some (VStr (name s)) /\
    (forall k, k <> "scraper" -> metadata !! k = metadata_of result !! k).
Proof.
  intros Hchain Hpassed Hgo Hres Hok Hmeta.
  eexists _, _. split; [|split; [|split; [|split]]].
  - rewrite (run_to_first_success _ _ _ _ _ _ Hchain Hpassed Hgo Hres Hok).
    simpl. by rewrite (forward_success_ok _ _ Hmeta).
  - intros k Hk. by rewrite lookup_insert_ne.
  - apply lookup_insert_eq.
  - apply lookup_insert_eq.
  - intros k Hk. by rewrite lookup_insert_ne.
Qed.

(** The iteration over the scraper named [file]: the guard asks
    nothing, and what [scrape] does decides how the loop goes on. *)
Lemma scrape_loop_file s rest i url errors :
  name s = "file" ->
  scrape_loop py_str (s :: rest) i url errors =
  after [Call_scrape i]
    (match scrape s url with
     | Return result =>
         if truthy (dict_get "success" result)
         then ([], forward_success (name s) result)
         else scrape_loop py_str rest (S i) url
                (record_error py_str (name s) result errors)
     | Raise exc =>
         scrape_loop py_str rest (S i) url
           (errors ++ [name s +:+ " scraper raised exception: " +:+ exc])
     end).
Proof.
  intros Hname. cbn [scrape_loop]. unfold guard. rewrite Hname.
  cbn [String.eqb Ascii.eqb Bool.eqb negb app].
  destruct (scrape s url) as [result|exc]; [|done].
  by destruct (truthy (dict_get "success" result)).
Qed.

Lemma guard_same i s s' url :
  name s' = name s -> can_handle s' url = can_handle s url ->
  guard i s' url = guard i s url.
Proof. unfold guard. by intros -> ->. Qed.

(** The run does not depend on the [scrape] of a scraper that does not
    pass the guard. *)
Lemma scrape_loop_not_attempted passed s s' rest i url errors :
  name s' = name s -> can_handle s' url = can_handle s url ->
  attempted s url = false ->
  scrape_loop py_str (passed ++ s' :: rest) i url errors =
  scrape_loop py_str (passed ++ s :: rest) i url errors.
Proof.
  intros Hname Hcan Hgo. revert i errors.
  induction passed as [|t passed IH]; intros i errors; cbn [app scrape_loop].
  - rewrite (guard_same i _ _ _ Hname Hcan).
    rewrite <- (guard_go i) in Hgo.
    destruct (guard i s url) as [asked go]. simpl in Hgo. by subst go.
  - destruct (guard i t url) as [asked go].
    destruct (negb go); [by rewrite IH|].
    destruct (scrape t url) as [result|exc]; [|by rewrite IH].
    destruct (truthy (dict_get "success" result)); [done|by rewrite IH].
Qed.

(** C9. The scraper named [file] is called without its [can_handle]
    being consulted, whatever that method would return: when the loop
    gets to it, its [scrape] is called and what [scrape] does decides how
    the run goes on (a successful result is forwarded, any other result or
    an exception is recorded and the loop continues).  No other scraper
    is called unless its [can_handle] returns [True]: one that returns
    [False] or raises is skipped, and the run is the same whatever its
    [scrape] would do. *)
Theorem file_scraper_always_attempted self passed s rest url :
  scrapers self = passed ++ s :: rest ->
  (name s = "file" ->
   Forall (fun t => succeeds t url = false) passed ->
   Call_scrape (length passed) ∈ fst (combined_scrape py_str self url) /\
   (Call_can_handle (length passed) ∉ fst (combined_scrape py_str self url)) /\
   combined_scrape py_str self url =
     after (passed_log passed 0 url ++ [Call_scrape (length passed)])
       (match scrape s url with
        | Return result =>
            if truthy (dict_get "success" result)
            then ([], forward_success (name s) result)
            else scrape_loop py_str rest (S (length passed)) url
                   (record_error py_str (name s) result
                      (passed_errors py_str passed url []))
        | Raise exc =>
            scrape_loop py_str rest (S (length passed)) url
              (passed_errors py_str passed url [] ++
               [name s +:+ " scraper raised exception: " +:+ exc])
        end)) /\
  (name s <> "file" ->
   can_handle s url <> Return true ->
   (Call_scrape (length passed) ∉ fst (combined_scrape py_str self url)) /\
   forall s', name s' = name s -> can_handle s' url = can_handle s url ->
     combined_scrape py_str (mkCombined (passed ++ s' :: rest)) url =
     combined_scrape py_str self url).
Proof.
  intros Hchain. unfold combined_scrape. rewrite Hchain. split.
  - intros Hname Hpassed.
    rewrite (scrape_loop_passed _ _ _ _ _ Hpassed).
    split; [|split].
    + unfold after; cbn [fst].
      rewrite loop_head_calls. unfold calls_of.
      rewrite guard_calls, (attempted_file _ _ Hname), Hname. simpl.
      rewrite elem_of_app, elem_of_cons. auto.
    + unfold after; cbn [fst].
      rewrite loop_head_calls. unfold calls_of.
      rewrite guard_calls, (attempted_file _ _ Hname), Hname. simpl.
      rewrite elem_of_app, elem_of_cons. intros [Hc|[Hc|Hc]].
      * apply passed_log_index in Hc. simpl in Hc. lia.
      * discriminate.
      * destruct (succeeds s url); [by apply elem_of_nil in Hc|].
        apply loop_log_index in Hc. simpl in Hc. lia.
    + by rewrite (scrape_loop_file _ _ _ _ _ Hname), after_after.
  - intros Hname Hcan. split.
    + intros Hc.
      apply loop_scrape_call in Hc as [_ (t & Ht & Hgo)].
      rewrite Nat.sub_0_r, lookup_app_r, Nat.sub_diag in Ht by lia.
      simpl in Ht. injection Ht as <-.
      by apply Hcan, attempted_other.
    + intros s' Hname' Hcan'. simpl.
      apply scrape_loop_not_attempted; [done|done|].
      destruct (attempted s url) eqn:Hgo; [|done].
      by destruct Hcan; apply attempted_other.
Qed.

(** The run of a chain in which no scraper succeeds. *)
Lemma run_exhausted self url :
  Forall (fun t => succeeds t url = false) (scrapers self) ->
  combined_scrape py_str self url =
  (passed_log (scrapers self) 0 url,
   Return (all_failed (passed_errors py_str (scrapers self) url []))).
Proof.
  intros Hall. unfold combined_scrape.
  rewrite <- (app_nil_r (scrapers self)) at 1.
  rewrite (scrape_loop_passed _ _ _ _ _ Hall). unfold after. simpl.
  by rewrite app_nil_r.
Qed.

(** C2 (amended). When no scraper of the chain succeeds,
    [CombinedScraper.scrape] returns the dictionary of lines 117-125:
    [success] is [False], [metadata] is [{"scraper": "none"}], [errors]
    is the accumulated failure list and [error] is the text
    "All scraping strategies failed". *)
Theorem exhausted_chain_result self url :
  Forall (fun t => succeeds t url = false) (scrapers self) ->
  exists result,
    snd (combined_scrape py_str self url) = Return result /\
    result = all_failed (passed_errors py_str (scrapers self) url []) /\
    result !! "success" = Some (VBool false) /\
    result !! "metadata" = Some (VDict (<["scraper" := VStr "none"]> ∅)) /\
    result !! "errors" =
      Some (VList (VStr <$> passed_errors py_str (scrapers self) url [])) /\
    result !! "error" = Some (VStr "All scraping strategies failed").
Proof.
  intros Hall. rewrite (run_exhausted _ _ Hall).
  eexists. split; [reflexivity|]. split; [reflexivity|].
  unfold all_failed. repeat split; by simplify_map_eq.
Qed.

(** What one passed iteration adds to the failure list. *)
Lemma failure_of_entry s url errors :
  failure_of py_str s url errors =
  errors ++ (if attempted s url && reports s url
             then [failure_entry py_str s url] else []).
Proof.
  unfold failure_of, reports, failure_entry, record_error, dict_get.
  destruct (attempted s url); simpl; [|by rewrite app_nil_r].
  destruct (scrape s url) as [result|exc]; [|done].
  destruct (result !! "error") as [e|]; simpl; [|by rewrite app_nil_r].
  destruct (truthy e); [done|by rewrite app_nil_r].
Qed.

Lemma passed_errors_entries passed url errors :
  passed_errors py_str passed url errors =
  errors ++ map (fun t => failure_entry py_str t url)
                (List.filter (fun t => reports t url)
                   (List.filter (fun t => attempted t url) passed)).
Proof.
  revert errors. induction passed as [|s rest IH]; intros errors; simpl.
  - by rewrite app_nil_r.
  - rewrite IH, failure_of_entry, <- app_assoc. f_equal.
    destruct (attempted s url); simpl; [|done].
    by destruct (reports s url).
Qed.

Lemma executed_app base chain (l1 l2 : list call) :
  executed base chain (l1 ++ l2) = executed base chain l1 ++ executed base chain l2.
Proof. apply omap_app. Qed.

(** Calls on positions past the head do not see the head. *)
Lemma executed_tail base s chain (log : list call) :
  Forall (fun c => S base <= call_index c) log ->
  executed base (s :: chain) log = executed (S base) chain log.
Proof.
  induction 1 as [|c log Hc _ IH]; [done|].
  change (c :: log) with ([c] ++ log).
  rewrite !executed_app, IH. f_equal.
  unfold executed. destruct c as [j|j]; simpl in *; [done|].
  repeat case_decide; try lia.
  by replace (j - base) with (S (j - S base)) by lia.
Qed.

Lemma executed_calls_of base s chain url :
  executed base (s :: chain) (calls_of base s url) =
  if attempted s url then [s] else [].
Proof.
  unfold calls_of. rewrite guard_calls, executed_app.
  assert (executed base (s :: chain)
            (if String.eqb (name s) "file" then [] else [Call_can_handle base]) = [])
    as -> by by destruct (String.eqb _ _).
  destruct (attempted s url); [|done].
  unfold executed. simpl. case_decide; [|lia].
  by rewrite Nat.sub_diag.
Qed.

(** The scrapers called along a passed chain are those that pass the guard. *)
Lemma executed_passed_log chain base url :
  executed base chain (passed_log chain base url) =
  List.filter (fun t => attempted t url) chain.
Proof.
  revert base. induction chain as [|s rest IH]; intros base; [done|].
  simpl. rewrite executed_app, executed_calls_of, executed_tail, IH.
  - by destruct (attempted s url).
  - apply Forall_forall. intros c Hc. apply passed_log_index in Hc. lia.
Qed.

(** C3 (amended). When no scraper of the chain succeeds, the scrapers
    whose [scrape] was called are those that pass the guard, in chain
    order, and the [errors] list holds, in that order, one entry for each
    called scraper that raised or whose result has a true [error] entry;
    a called scraper whose result has no [error] text leaves no entry. *)
Theorem errors_one_entry_per_reporting_scraper self url :
  Forall (fun t => succeeds t url = false) (scrapers self) ->
  exists result,
    snd (combined_scrape py_str self url) = Return result /\
    executed 0 (scrapers self) (fst (combined_scrape py_str self url)) =
      List.filter (fun t => attempted t url) (scrapers self) /\
    result !! "errors" =
      Some (VList (VStr <$>
        map (fun t => failure_entry py_str t url)
            (List.filter (fun t => reports t url)
               (executed 0 (scrapers self) (fst (combined_scrape py_str self url)))))).
Proof.
  intros Hall. rewrite (run_exhausted _ _ Hall). simpl fst. simpl snd.
  eexists. split; [reflexivity|].
  rewrite executed_passed_log. split; [done|].
  rewrite passed_errors_entries. unfold all_failed. by simplify_map_eq.
Qed.

End ChainProperties.

(** ** The chain on concrete scrapers *)

Import Examples.

Lemma first_success_wins_witness :
  exists log metadata,
    combined_scrape str_of (mkCombined [file_on_html; api; static_ok; dynamic]) page =
      (log, Return (<["metadata" := VDict metadata]> parsed)) /\
    metadata !! "scraper" = Some (VStr "static") /\
    last log = Some (Call_scrape 2) /\
    Forall (fun c => call_index c <= 2) log.
Proof.
  apply (first_success_wins str_of
           (mkCombined [file_on_html; api; static_ok; dynamic])
           [file_on_html; api] static_ok [dynamic] page parsed).
  - reflexivity.
  - repeat constructor.
  - reflexivity.
  - reflexivity.
  - vm_compute. reflexivity.
  - vm_compute. reflexivity.
Defined.

Lemma forwarded_result_frame_witness :
  exists forwarded metadata,
    snd (combined_scrape str_of (mkCombined [file_on_download; static_ok]) page) =
      Return forwarded /\
    (forall k, k <> "metadata" -> forwarded !! k = download !! k) /\
    forwarded !! "metadata" = Some (VDict metadata) /\
    metadata !! "scraper" = Some (VStr "file") /\
    (forall k, k <> "scraper" -> metadata !! k = metadata_of download !! k).
Proof.
  apply (forwarded_result_frame str_of
           (mkCombined [file_on_download; static_ok])
           [] file_on_download [static_ok] page download).
  - reflexivity.
  - constructor.
  - reflexivity.
  - reflexivity.
  - vm_compute. reflexivity.
  - vm_compute. reflexivity.
Defined.

Lemma file_scraper_always_attempted_witness :
  (Call_scrape 1 ∈ fst (combined_scrape str_of (mkCombined [api; file_on_download; static_ok]) page) /\
   (Call_can_handle 1 ∉ fst (combined_scrape str_of (mkCombined [api; file_on_download; static_ok]) page)) /\
   combined_scrape str_of (mkCombined [api; file_on_download; static_ok]) page =
     ([Call_can_handle 0; Call_scrape 1], forward_success "file" download)) /\
  ((Call_scrape 0 ∉ fst (combined_scrape str_of (mkCombined [api; file_on_download; static_ok]) page)) /\
   forall s', name s' = "api" -> can_handle s' page = Return false ->
     combined_scrape str_of (mkCombined [s'; file_on_download; static_ok]) page =
     combined_scrape str_of (mkCombined [api; file_on_download; static_ok]) page).
Proof.
  split.
  - apply (file_scraper_always_attempted str_of
             (mkCombined [api; file_on_download; static_ok])
             [api] file_on_download [static_ok] page).
    + reflexivity.
    + reflexivity.
    + repeat constructor.
  - apply (file_scraper_always_attempted str_of
             (mkCombined [api; file_on_download; static_ok])
             [] api [file_on_download; static_ok] page).
    + reflexivity.
    + discriminate.
    + discriminate.
Defined.

Lemma exhausted_chain_result_witness :
  exists result,
    snd (combined_scrape str_of (mkCombined [file_on_html; api; static_down]) page) =
      Return result /\
    result = all_failed
               (passed_errors str_of [file_on_html; api; static_down] page []) /\
    result !! "success" = Some (VBool false) /\
    result !! "metadata" = Some (VDict (<["scraper" := VStr "none"]> ∅)) /\
    result !! "errors" =
      Some (VList (VStr <$> passed_errors str_of [file_on_html; api; static_down] page [])) /\
    result !! "error" = Some (VStr "All scraping strategies failed").
Proof.
  apply (exhausted_chain_result str_of
           (mkCombined [file_on_html; api; static_down]) page).
  repeat constructor.
Defined.

(** C2, as stated, fails: the [error] text of an exhausted chain is
    not "All strategies failed". *)
Lemma exhausted_error_text_differs :
  exists result,
    snd (combined_scrape str_of (mkCombined [api]) page) = Return result /\
    result !! "error" = Some (VStr "All scraping strategies failed") /\
    result !! "error" <> Some (VStr "All strategies failed").
Proof.
  eexists. split; [reflexivity|]. split; [reflexivity|].
  vm_compute. discriminate.
Qed.

Lemma errors_one_entry_per_reporting_scraper_witness :
  exists result,
    snd (combined_scrape str_of (mkCombined [file_on_html; api; static_down]) page) =
      Return result /\
    executed 0 [file_on_html; api; static_down]
      (fst (combined_scrape str_of (mkCombined [file_on_html; api; static_down]) page)) =
      List.filter (fun t => attempted t page) [file_on_html; api; static_down] /\
    result !! "errors" =
      Some (VList (VStr <$>
        map (fun t => failure_entry str_of t page)
            (List.filter (fun t => reports t page)
               (executed 0 [file_on_html; api; static_down]
                  (fst (combined_scrape str_of
                          (mkCombined [file_on_html; api; static_down]) page)))))).
Proof.
  apply (errors_one_entry_per_reporting_scraper str_of
           (mkCombined [file_on_html; api; static_down]) page).
  repeat constructor.
Defined.

(** C3, as stated, fails: two scrapers are called, none succeeds, and
    [errors] has one entry, since the second result has no [error]. *)
Lemma quiet_failure_leaves_no_entry :
  Forall (fun t => succeeds t page = false) [file_on_html; quiet] /\
  executed 0 [file_on_html; quiet]
    (fst (combined_scrape str_of (mkCombined [file_on_html; quiet]) page)) =
    [file_on_html; quiet] /\
  exists result,
    snd (combined_scrape str_of (mkCombined [file_on_html; quiet]) page) = Return result /\
    result !! "errors" = Some (VList [VStr "file: Resource appears to be HTML"]).
Proof.
  split; [repeat constructor|]. split; [reflexivity|].
  eexists. split; [reflexivity|]. vm_compute. reflexivity.
Qed.

(** Outside the hypotheses of C1 and C10: a successful result whose
    [metadata] is [None] makes line 111 raise a [TypeError], which
    [CombinedScraper.scrape] does not catch. *)
Example malformed_metadata_raises :
  snd (combined_scrape str_of (mkCombined [careless; static_ok]) page) =
  Raise "'NoneType' object does not support item assignment".
Proof. vm_compute. reflexivity. Qed.

(** * Properties of the task manager *)

Import Tasks.

(** ** What one atomic step does *)

#[local] Hint Constructors future_change : core.

Lemma update_future_change self a change self' b ev :
  update_future self a change = Some self' ->
  (forall f f', change f = Some f' -> future_change a ev (Some f) (Some f')) ->
  future_change b ev (heap self !! b) (heap self' !! b).
Proof.
  unfold update_future. intros Hup Hchange.
  destruct (heap self !! a) as [f|] eqn:Hf; simpl in Hup; [|done].
  destruct (change f) as [f'|] eqn:Hf'; simpl in Hup; [|done].
  injection Hup as <-. simpl.
  destruct (decide (a = b)) as [->|Hne].
  - rewrite lookup_insert_eq, Hf. auto.
  - rewrite lookup_insert_ne by done. auto.
Qed.

Lemma cancel_heap self job_id b :
  future_change b (Cancel job_id) (heap self !! b) (heap (fst (cancel self job_id)) !! b).
Proof.
  unfold cancel.
  destruct (_futures self !! job_id) as [a|]; [|auto].
  destruct (heap self !! a) as [f|] eqn:Hf; [|auto].
  destruct (future_cancel f) as [f' c] eqn:Hc. simpl.
  destruct (decide (a = b)) as [->|Hne].
  - rewrite lookup_insert_eq, Hf.
    replace f' with (fst (future_cancel f)) by by rewrite Hc. auto.
  - rewrite lookup_insert_ne by done. auto.
Qed.

Lemma step_future_change self ev self' b :
  step self ev = Some self' ->
  future_change b ev (heap self !! b) (heap self' !! b).
Proof.
  destruct ev as [j|j|j|a|a o|j|j]; simpl; intros Hstep.
  - destruct (heap self !! j) eqn:Hj; [done|]. injection Hstep as <-. simpl.
    destruct (decide (j = b)) as [->|Hne].
    + rewrite lookup_insert_eq, Hj. auto.
    + rewrite lookup_insert_ne by done. auto.
  - destruct (heap self !! j), (_futures self !! j); try done.
    injection Hstep as <-. auto.
  - destruct (_futures self !! j) as [a|]; simpl in Hstep; [|done].
    eapply update_future_change; [done|].
    intros f f' Hf. simpl in Hf.
    destruct (_done_callback f) eqn:Hcb; simplify_eq. auto.
  - eapply update_future_change; eauto.
  - eapply update_future_change; eauto.
  - destruct (heap self !! j) as [f|] eqn:Hj; simpl in Hstep; [|done].
    destruct (_done_callback f) eqn:Hcb; try done.
    destruct (future_result f) as [o|] eqn:Ho; simpl in Hstep; [|done].
    injection Hstep as <-. simpl.
    destruct (decide (j = b)) as [->|Hne].
    + rewrite lookup_insert_eq, Hj. eauto.
    + rewrite lookup_insert_ne by done. auto.
  - injection Hstep as <-. apply cancel_heap.
Qed.

Lemma update_future_maps self a change self' :
  update_future self a change = Some self' ->
  _futures self' = _futures self /\ _results self' = _results self.
Proof.
  unfold update_future. intros Hup.
  destruct (heap self !! a) as [f|]; simpl in Hup; [|done].
  destruct (change f); simpl in Hup; [|done].
  by injection Hup as <-.
Qed.

Lemma cancel_maps self job_id :
  _futures (fst (cancel self job_id)) = _futures self /\
  _results (fst (cancel self job_id)) = _results self.
Proof.
  unfold cancel.
  destruct (_futures self !! job_id) as [a|]; [|done].
  destruct (heap self !! a) as [f|]; [|done].
  by destruct (future_cancel f).
Qed.

(** Only line 67 writes [self._futures]. *)
Lemma step_futures self ev self' :
  step self ev = Some self' ->
  match ev with
  | Submit_register j =>
      _futures self !! j = None /\ is_Some (heap self !! j) /\
      _futures self' = <[j := j]> (_futures self)
  | _ => _futures self' = _futures self
  end.
Proof.
  destruct ev as [j|j|j|a|a o|j|j]; simpl; intros Hstep.
  - destruct (heap self !! j); [done|]. by injection Hstep as <-.
  - destruct (heap self !! j), (_futures self !! j); try done.
    injection Hstep as <-. eauto.
  - destruct (_futures self !! j) as [a|]; simpl in Hstep; [|done].
    by apply update_future_maps in Hstep as [? ?].
  - by apply update_future_maps in Hstep as [? ?].
  - by apply update_future_maps in Hstep as [? ?].
  - destruct (heap self !! j) as [f|]; simpl in Hstep; [|done].
    destruct (_done_callback f); try done.
    destruct (future_result f); simpl in Hstep; [|done].
    by injection Hstep as <-.
  - injection Hstep as <-. apply cancel_maps.
Qed.

(** Only line 83 writes [self._results]. *)
Lemma step_results self ev self' :
  step self ev = Some self' ->
  match ev with
  | Callback_run j =>
      exists f o, heap self !! j = Some f /\ _done_callback f = Due /\
                  future_result f = Some o /\
                  _results self' = <[j := callback_result o]> (_results self)
  | _ => _results self' = _results self
  end.
Proof.
  destruct ev as [j|j|j|a|a o|j|j]; simpl; intros Hstep.
  - destruct (heap self !! j); [done|]. by injection Hstep as <-.
  - destruct (heap self !! j), (_futures self !! j); try done.
    by injection Hstep as <-.
  - destruct (_futures self !! j) as [a|]; simpl in Hstep; [|done].
    by apply update_future_maps in Hstep as [? ?].
  - by apply update_future_maps in Hstep as [? ?].
  - by apply update_future_maps in Hstep as [? ?].
  - destruct (heap self !! j) as [f|]; simpl in Hstep; [|done].
    destruct (_done_callback f) eqn:Hcb; try done.
    destruct (future_result f) as [o|] eqn:Ho; simpl in Hstep; [|done].
    injection Hstep as <-. eauto 10.
  - injection Hstep as <-. apply cancel_maps.
Qed.

(** ** Invariants of the reachable states *)

Lemma exec_invariant (P : TaskManager -> Prop) :
  (forall self ev self', P self -> step self ev = Some self' -> P self') ->
  forall evs self self', P self -> exec self evs = Some self' -> P self'.
Proof.
  intros Hstep. induction evs as [|ev evs IH]; intros self self' HP Hexec.
  - simpl in Hexec. by injection Hexec as <-.
  - simpl in Hexec.
    destruct (step self ev) as [self1|] eqn:H1; simpl in Hexec; [|done].
    eauto.
Qed.

Lemma futures_inv_step self ev self' :
  futures_inv self -> step self ev = Some self' -> futures_inv self'.
Proof.
  intros Hinv Hstep job_id a. apply step_futures in Hstep.
  destruct ev as [j|j|j|b|b o|j|j]; try (rewrite Hstep; apply Hinv).
  destruct Hstep as (_ & _ & ->).
  destruct (decide (j = job_id)) as [->|Hne].
  - rewrite lookup_insert_eq. congruence.
  - rewrite lookup_insert_ne by done. apply Hinv.
Qed.

Lemma callback_inv_step self ev self' :
  callback_inv self -> step self ev = Some self' -> callback_inv self'.
Proof.
  intros Hinv Hstep job_id f' Hf' Hran.
  pose proof (step_future_change _ _ _ job_id Hstep) as Hch.
  pose proof (step_results _ _ _ Hstep) as Hres.
  rewrite Hf' in Hch. clear Hstep Hf'.
  remember (heap self !! job_id) as x eqn:Hx.
  remember (Some f') as y eqn:Hy.
  symmetry in Hx.
  destruct Hch as [ev x| | j f Hcb | f f0 Hclaim | f f0 o Hfin
                  | f o Hcb Ho | j f]; simplify_eq; simpl in Hres.
  - (* the future is untouched *)
    assert (heap self !! job_id = Some f') as Hx by congruence.
    destruct (Hinv job_id f' Hx Hran) as (o & Ho & Hstored).
    exists o. split; [done|].
    destruct ev as [j|j|j|b|b o'|j|j]; try (by rewrite Hres).
    destruct Hres as (f & o' & Hf & Hcb & _ & ->).
    destruct (decide (j = job_id)) as [->|Hne].
    + congruence.
    + by rewrite lookup_insert_ne.
  - unfold add_done_callback in Hran. simpl in Hran. by destruct (done f).
  - (* claimed by a pool thread *)
    unfold set_running_or_notify_cancel in Hclaim.
    destruct (_state f) eqn:Hst; simplify_eq; simpl in *.
    + destruct (Hinv job_id f Hx Hran) as (o & Ho & _).
      unfold future_result in Ho. by rewrite Hst in Ho.
    + destruct (Hinv job_id f Hx Hran) as (o & Ho & Hstored).
      unfold future_result in *. rewrite Hst in Ho. simpl.
      exists o. split; [done|]. by rewrite Hres.
  - (* finished by a pool thread *)
    unfold set_outcome in Hfin.
    destruct (_state f) eqn:Hst; simplify_eq; simpl in *.
    assert (_done_callback f = Ran) as Hran'
      by by destruct (_done_callback f).
    destruct (Hinv job_id f Hx Hran') as (o' & Ho & _).
    unfold future_result in Ho. by rewrite Hst in Ho.
  - (* the callback stores its result *)
    destruct Hres as (f0 & o0 & Hf0 & _ & Ho0 & ->).
    assert (f0 = f) as -> by congruence.
    exists o. split; [done|].
    rewrite lookup_insert_eq. congruence.
  - (* cancel *)
    unfold future_cancel in *.
    destruct (_state f) eqn:Hst; simpl in *;
      try (destruct (Hinv job_id f Hx Hran) as (o & Ho & Hstored);
           exists o; split; [done|]; by rewrite Hres).
    assert (_done_callback f = Ran) as Hran'
      by by destruct (_done_callback f).
    destruct (Hinv job_id f Hx Hran') as (o & Ho & _).
    unfold future_result in Ho. by rewrite Hst in Ho.
Qed.

Lemma init_invariants : futures_inv init /\ callback_inv init.
Proof.
  split; intros job_id x Hx; simpl in Hx; by rewrite lookup_empty in Hx.
Qed.

Lemma reachable_invariants evs self :
  exec init evs = Some self -> futures_inv self /\ callback_inv self.
Proof.
  intros Hexec.
  apply (exec_invariant (fun s => futures_inv s /\ callback_inv s))
    with (evs := evs) (self := init); [|apply init_invariants|done].
  intros s ev s' [H1 H2] Hstep.
  split; [by eapply futures_inv_step|by eapply callback_inv_step].
Qed.

(** [self._futures] holds the identifiers [submit] has stored. *)
Lemma exec_issued evs self0 self job_id :
  exec self0 evs = Some self ->
  _futures self !! job_id =
  if issued evs job_id then Some job_id else _futures self0 !! job_id.
Proof.
  revert self0. induction evs as [|ev evs IH]; intros self0 Hexec.
  - simpl in Hexec. by injection Hexec as <-.
  - simpl in Hexec.
    destruct (step self0 ev) as [self1|] eqn:Hstep; simpl in Hexec; [|done].
    rewrite (IH _ Hexec). unfold issued. cbn [existsb].
    fold (issued evs job_id).
    destruct (issued evs job_id); [by rewrite orb_true_r|].
    rewrite orb_false_r. apply step_futures in Hstep.
    destruct ev as [j|j|j|b|b o|j|j]; try (by rewrite Hstep).
    destruct Hstep as (_ & _ & ->).
    destruct (String.eqb_spec j job_id) as [->|Hne].
    + by rewrite lookup_insert_eq.
    + by rewrite lookup_insert_ne.
Qed.

Lemma future_change_ran b ev x y :
  future_change b ev x y ->
  (forall j, ev <> Callback_run j) ->
  is_ran y = is_ran x.
Proof.
  intros Hch Hev.
  destruct Hch as [ev x| | j f Hcb | f f0 Hclaim | f f0 o Hfin
                  | f o Hcb Ho | j f]; simpl.
  - done.
  - done.
  - rewrite Hcb. by destruct (done f).
  - unfold set_running_or_notify_cancel in Hclaim.
    by destruct (_state f); simplify_eq.
  - unfold set_outcome in Hfin.
    destruct (_state f); simplify_eq; simpl.
    by destruct (_done_callback f).
  - by destruct (Hev b).
  - unfold future_cancel.
    destruct (_state f); simpl; try done.
    by destruct (_done_callback f).
Qed.

(** Each store is the return of one callback. *)
Lemma step_ran_count self ev self' job_id :
  step self ev = Some self' ->
  ran_count self' job_id = ran_count self job_id + stores [ev] job_id.
Proof.
  intros Hstep.
  change (ran_count self' job_id) with (is_ran (heap self' !! job_id)).
  change (ran_count self job_id) with (is_ran (heap self !! job_id)).
  destruct ev as [j|j|j|b|b o|j|j];
    try (rewrite (future_change_ran _ _ _ _
                    (step_future_change _ _ _ job_id Hstep)) by done;
         unfold stores; simpl; lia).
  simpl in Hstep. unfold stores. simpl.
  destruct (heap self !! j) as [f|] eqn:Hf; simpl in Hstep; [|done].
  destruct (_done_callback f) eqn:Hcb; try done.
  destruct (future_result f) as [o|]; simpl in Hstep; [|done].
  injection Hstep as <-. simpl.
  destruct (String.eqb_spec j job_id) as [->|Hne].
  - rewrite lookup_insert_eq, Hf. simpl. by rewrite Hcb.
  - rewrite lookup_insert_ne by done. simpl. lia.
Qed.

Lemma exec_stores evs self0 self job_id :
  exec self0 evs = Some self ->
  ran_count self job_id = ran_count self0 job_id + stores evs job_id.
Proof.
  revert self0. induction evs as [|ev evs IH]; intros self0 Hexec.
  - simpl in Hexec. injection Hexec as <-. unfold stores. simpl. lia.
  - simpl in Hexec.
    destruct (step self0 ev) as [self1|] eqn:Hstep; simpl in Hexec; [|done].
    rewrite (IH _ Hexec), (step_ran_count _ _ _ _ Hstep).
    unfold stores. simpl. destruct ev; simpl; try lia.
    destruct (String.eqb _ _); simpl; lia.
Qed.

Lemma results_inv_step self ev self' :
  results_inv self -> step self ev = Some self' -> results_inv self'.
Proof.
  intros Hinv Hstep job_id r Hr.
  pose proof (step_future_change _ _ _ job_id Hstep) as Hch.
  pose proof (step_results _ _ _ Hstep) as Hres.
  destruct ev as [j|j|j|b|b o|j|j];
    try (rewrite (future_change_ran _ _ _ _ Hch) by done;
         rewrite Hres in Hr; by eapply Hinv).
  destruct Hres as (f & o & Hf & Hcb & Ho & Hres). rewrite Hres in Hr.
  destruct (decide (j = job_id)) as [->|Hne].
  - simpl in Hstep. rewrite Hf in Hstep. simpl in Hstep.
    rewrite Hcb, Ho in Hstep. simpl in Hstep. injection Hstep as <-.
    simpl. by rewrite lookup_insert_eq.
  - rewrite lookup_insert_ne in Hr by done.
    simpl in Hstep. rewrite Hf in Hstep. simpl in Hstep.
    rewrite Hcb, Ho in Hstep. simpl in Hstep. injection Hstep as <-.
    simpl. rewrite lookup_insert_ne by done. by eapply Hinv.
Qed.

Lemma reachable_results_inv evs self :
  exec init evs = Some self -> results_inv self.
Proof.
  intros Hexec.
  apply (exec_invariant results_inv) with (evs := evs) (self := init);
    [apply results_inv_step| |done].
  intros job_id r Hr. simpl in Hr. by rewrite lookup_empty in Hr.
Qed.

(** C4 fails on the code in its third case.  In every state the task
    manager can reach, [get_status] returns [(None, None)] for an
    identifier [submit] has not stored and [("pending", None)] for a job
    whose future is pending or running.  For a job that is complete it
    returns [("finished", result)], [result] being what the callback
    computes from the work's outcome, only once the callback has
    returned: from the moment the future is done until the callback's
    store at line 83, it returns [("finished", None)]. *)
Theorem get_status_cases evs self job_id :
  exec init evs = Some self ->
  (issued evs job_id = false -> get_status self job_id = (None, None)) /\
  (forall f, future_of self job_id = Some f ->
             _state f = PENDING \/ _state f = RUNNING ->
             get_status self job_id = (Some "pending", None)) /\
  (forall f o, future_of self job_id = Some f ->
               _state f = FINISHED -> _outcome f = Some o ->
               _done_callback f = Ran ->
               get_status self job_id = (Some "finished", Some (callback_result o))) /\
  (forall f, future_of self job_id = Some f ->
             done f = true ->
             _done_callback f <> Ran ->
             get_status self job_id = (Some "finished", None)).
Proof.
  intros Hexec.
  destruct (reachable_invariants _ _ Hexec) as [Hfut Hcb].
  pose proof (reachable_results_inv _ _ Hexec) as Hres.
  unfold get_status, get_status_locked, get_status_report, future_of.
  split; [|split; [|split]].
  - intros Hnew. rewrite (exec_issued _ _ _ job_id Hexec), Hnew. simpl.
    by rewrite lookup_empty.
  - intros f Hf Hst.
    destruct (_futures self !! job_id) as [a|]; simpl in *; [|done].
    rewrite Hf. unfold done. simpl. by destruct Hst as [-> | ->].
  - intros f o Hf Hst Ho Hran.
    destruct (_futures self !! job_id) as [a|] eqn:Ha; simpl in *; [|done].
    apply Hfut in Ha as ->.
    rewrite Hf. unfold done. simpl. rewrite Hst.
    destruct (Hcb _ _ Hf Hran) as (o' & Ho' & ->).
    unfold future_result in Ho'. rewrite Hst in Ho'. congruence.
  - intros f Hf Hdone Hran.
    destruct (_futures self !! job_id) as [a|] eqn:Ha; simpl in *; [|done].
    apply Hfut in Ha as ->.
    rewrite Hf. simpl. rewrite Hdone.
    destruct (_results self !! job_id) as [r|] eqn:Hr; [|done].
    apply Hres in Hr. unfold is_ran in Hr. rewrite Hf in Hr.
    destruct (_done_callback f); done.
Qed.

(** ** Started work and cancelled futures *)

Lemma future_change_started b ev x y :
  future_change b ev x y -> has_started x = true -> has_started y = true.
Proof.
  intros Hch.
  destruct Hch as [ev x| | j f Hcb | f f0 Hclaim | f f0 o Hfin
                  | f o Hcb Ho | j f]; simpl; try done.
  - unfold set_running_or_notify_cancel in Hclaim.
    by destruct (_state f); simplify_eq.
  - unfold set_outcome in Hfin. by destruct (_state f); simplify_eq/=.
  - unfold future_cancel.
    destruct (_state f) eqn:Hst; simpl; rewrite ?Hst; done.
Qed.

Lemma future_change_cancelled b ev x y :
  future_change b ev x y -> is_cancelled x = true -> is_cancelled y = true.
Proof.
  intros Hch.
  destruct Hch as [ev x| | j f Hcb | f f0 Hclaim | f f0 o Hfin
                  | f o Hcb Ho | j f]; simpl; try done.
  - unfold set_running_or_notify_cancel in Hclaim.
    by destruct (_state f); simplify_eq.
  - unfold set_outcome in Hfin. by destruct (_state f); simplify_eq/=.
  - unfold future_cancel.
    destruct (_state f) eqn:Hst; simpl; rewrite ?Hst; done.
Qed.

Lemma exec_started evs self self' a :
  exec self evs = Some self' ->
  has_started (heap self !! a) = true -> has_started (heap self' !! a) = true.
Proof.
  intros Hexec Hs.
  apply (exec_invariant (fun s => has_started (heap s !! a) = true))
    with (evs := evs) (self := self); [|done|done].
  intros s ev s' Hstarted Hstep.
  by eapply future_change_started, Hstarted; apply step_future_change.
Qed.

Lemma exec_cancelled evs self self' a :
  exec self evs = Some self' ->
  is_cancelled (heap self !! a) = true -> is_cancelled (heap self' !! a) = true.
Proof.
  intros Hexec Hs.
  apply (exec_invariant (fun s => is_cancelled (heap s !! a) = true))
    with (evs := evs) (self := self); [|done|done].
  intros s ev s' Hc Hstep.
  by eapply future_change_cancelled, Hc; apply step_future_change.
Qed.

Lemma is_running_started self a :
  is_running self a = true -> has_started (heap self !! a) = true.
Proof.
  unfold is_running, has_started.
  destruct (heap self !! a) as [f|]; [|done]. by destruct (_state f).
Qed.

(** Work that was running at some point has started for good. *)
Lemma ever_running_started evs self self' a :
  exec self evs = Some self' ->
  ever_running self evs a = true ->
  has_started (heap self' !! a) = true.
Proof.
  revert self. induction evs as [|ev evs IH]; intros self Hexec Hever.
  - simpl in *. injection Hexec as <-. rewrite orb_false_r in Hever.
    by apply is_running_started.
  - cbn [ever_running] in Hever. apply orb_true_iff in Hever as [Hnow|Hlater].
    + eapply exec_started; [done|]. by apply is_running_started.
    + simpl in Hexec.
      destruct (step self ev) as [self1|]; simpl in Hexec; [|done].
      eauto.
Qed.

(** The work of a cancelled future never runs. *)
Lemma cancelled_never_running evs self a :
  is_cancelled (heap self !! a) = true -> ever_running self evs a = false.
Proof.
  revert self. induction evs as [|ev evs IH]; intros self Hc;
    cbn [ever_running].
  - rewrite orb_false_r. unfold is_running, is_cancelled in *.
    destruct (heap self !! a) as [f|]; [|done]. by destruct (_state f).
  - apply orb_false_iff. split.
    + unfold is_running, is_cancelled in *.
      destruct (heap self !! a) as [f|]; [|done]. by destruct (_state f).
    + destruct (step self ev) as [self1|] eqn:Hstep; [|done].
      apply IH.
      by eapply future_change_cancelled, Hc; apply step_future_change.
Qed.

(** Entries of [self._futures] are never removed or replaced. *)
Lemma exec_futures_stable evs self self' job_id a :
  exec self evs = Some self' ->
  _futures self !! job_id = Some a -> _futures self' !! job_id = Some a.
Proof.
  intros Hexec Ha.
  apply (exec_invariant (fun s => _futures s !! job_id = Some a))
    with (evs := evs) (self := self); [|done|done].
  intros s ev s' Hs Hstep. apply step_futures in Hstep.
  destruct ev as [j|j|j|b|b o|j|j]; try (by rewrite Hstep).
  destruct Hstep as (Hnone & _ & ->).
  rewrite lookup_insert_ne; [done|]. congruence.
Qed.

(** C7. In every state the task manager can reach, [cancel] returns
    [True] only for a job whose work no pool thread has begun to
    execute, and returns [False] when the job's future is running or
    finished and when the identifier is not in [self._futures]. *)
Theorem cancel_only_before_start evs self job_id :
  exec init evs = Some self ->
  (snd (cancel self job_id) = true ->
   exists a, _futures self !! job_id = Some a /\
             ever_running init evs a = false) /\
  (forall f, future_of self job_id = Some f ->
             _state f = RUNNING \/ _state f = FINISHED ->
             snd (cancel self job_id) = false) /\
  (_futures self !! job_id = None -> snd (cancel self job_id) = false).
Proof.
  intros Hexec. unfold cancel, future_of. split; [|split].
  - destruct (_futures self !! job_id) as [a|]; [|done].
    intros Hc. exists a. split; [done|].
    destruct (ever_running init evs a) eqn:Hever; [|done].
    pose proof (ever_running_started _ _ _ _ Hexec Hever) as Hs.
    unfold has_started in Hs.
    destruct (heap self !! a) as [f|]; [|done].
    unfold future_cancel in Hc. by destruct (_state f).
  - intros f Hf Hst.
    destruct (_futures self !! job_id) as [a|]; simpl in Hf; [|done].
    rewrite Hf. unfold future_cancel. by destruct Hst as [-> | ->].
  - by intros ->.
Qed.

(** C6 (amended). For a job still in the queue (its future is
    pending), [cancel] returns [True]; in every state reachable
    afterwards the future is cancelled and no pool thread ever executes
    its work; [get_status], which has no status for cancelled jobs,
    reports the job as "finished". *)
Theorem cancel_queued_job self job_id a f :
  _futures self !! job_id = Some a ->
  heap self !! a = Some f ->
  _state f = PENDING ->
  snd (cancel self job_id) = true /\
  forall evs self',
    exec (fst (cancel self job_id)) evs = Some self' ->
    ever_running (fst (cancel self job_id)) evs a = false /\
    (exists f', future_of self' job_id = Some f' /\
                (_state f' = CANCELLED \/ _state f' = CANCELLED_AND_NOTIFIED)) /\
    fst (get_status self' job_id) = Some "finished".
Proof.
  intros Ha Hf Hst.
  assert (cancel self job_id =
          (mkTaskManager
             (<[a := mkFuture CANCELLED (_outcome f)
                              (invoke_callbacks (_done_callback f))]> (heap self))
             (_futures self) (_results self), true)) as ->.
  { unfold cancel, future_cancel. by rewrite Ha, Hf, Hst. }
  split; [done|]. simpl. intros evs self' Hexec.
  set (self1 := mkTaskManager _ _ _) in *.
  assert (is_cancelled (heap self1 !! a) = true) as Hc
    by (subst self1; simpl; by rewrite lookup_insert_eq).
  pose proof (exec_cancelled _ _ _ _ Hexec Hc) as Hc'.
  pose proof (exec_futures_stable _ _ _ job_id a Hexec Ha) as Ha'.
  split; [by apply cancelled_never_running|].
  unfold get_status, get_status_locked, get_status_report, future_of.
  rewrite Ha'. simpl. unfold is_cancelled in Hc'.
  destruct (heap self' !! a) as [f'|]; [|done]. simpl. unfold done.
  split.
  - exists f'. split; [done|]. destruct (_state f'); auto; done.
  - by destruct (_state f').
Qed.


(** ** The task manager on concrete schedules *)

Lemma get_status_cases_witness :
  get_status (state_after completed) "job2" = (None, None) /\
  get_status (state_after claimed) "job1" = (Some "pending", None) /\
  get_status (state_after completed) "job1" = (Some "finished", Some parsed) /\
  get_status (state_after completing) "job1" = (Some "finished", None).
Proof.
  split; [|split; [|split]].
  - apply (get_status_cases completed (state_after completed) "job2");
      reflexivity.
  - destruct (get_status_cases claimed (state_after claimed) "job1")
      as (_ & Hpending & _); [reflexivity|].
    apply (Hpending (mkFuture RUNNING None Waiting)); [reflexivity|].
    right. reflexivity.
  - destruct (get_status_cases completed (state_after completed) "job1")
      as (_ & _ & Hfinished & _); [reflexivity|].
    apply (Hfinished (mkFuture FINISHED (Some (Return (VDict parsed))) Ran)
                     (Return (VDict parsed))); reflexivity.
  - destruct (get_status_cases completing (state_after completing) "job1")
      as (_ & _ & _ & Hwindow); [reflexivity|].
    apply (Hwindow (mkFuture FINISHED (Some (Return (VDict parsed))) Due));
      [reflexivity|reflexivity|discriminate].
Defined.

(** C5 fails on the code.  A job is running; a reader's call of
    [get_status] reads [self._futures] and [self._results] under the
    lock; the pool thread then finishes the work; the reader tests
    [future.done()] and returns [("finished", None)].  A call of
    [get_status] that runs as a whole between the future's state
    change and the callback's store returns the same. *)
Theorem finished_without_result :
  exec init claimed = Some (state_after claimed) /\
  step (state_after claimed) (Worker_finish "job1" (Return (VDict parsed))) =
    Some (state_after completing) /\
  (_state <$> future_of (state_after completing) "job1") = Some FINISHED /\
  get_status_report (state_after completing)
                    (get_status_locked (state_after claimed) "job1") =
    (Some "finished", None) /\
  get_status (state_after completing) "job1" = (Some "finished", None).
Proof. repeat split; vm_compute; reflexivity. Qed.

Lemma cancel_only_before_start_witness :
  (exists a, _futures (state_after queued) !! "job1" = Some a /\
             ever_running init queued a = false) /\
  snd (cancel (state_after claimed) "job1") = false /\
  snd (cancel (state_after completed) "job1") = false /\
  snd (cancel (state_after queued) "job2") = false.
Proof.
  split; [|split; [|split]].
  - apply (cancel_only_before_start queued (state_after queued) "job1");
      reflexivity.
  - destruct (cancel_only_before_start claimed (state_after claimed) "job1")
      as (_ & Hbusy & _); [reflexivity|].
    apply (Hbusy (mkFuture RUNNING None Waiting)); [reflexivity|].
    left. reflexivity.
  - destruct (cancel_only_before_start completed (state_after completed) "job1")
      as (_ & Hbusy & _); [reflexivity|].
    apply (Hbusy (mkFuture FINISHED (Some (Return (VDict parsed))) Ran));
      [reflexivity|].
    right. reflexivity.
  - apply (cancel_only_before_start queued (state_after queued) "job2");
      reflexivity.
Defined.

Lemma cancel_queued_job_witness :
  snd (cancel (state_after queued) "job1") = true /\
  forall evs self',
    exec (fst (cancel (state_after queued) "job1")) evs = Some self' ->
    ever_running (fst (cancel (state_after queued) "job1")) evs "job1" = false /\
    (exists f', future_of self' "job1" = Some f' /\
                (_state f' = CANCELLED \/ _state f' = CANCELLED_AND_NOTIFIED)) /\
    fst (get_status self' "job1") = Some "finished".
Proof.
  apply (cancel_queued_job (state_after queued) "job1" "job1"
           (mkFuture PENDING None Waiting)); reflexivity.
Defined.

(** C6, as stated, fails: a job cancelled in the queue is reported as
    "finished", with the failure result the callback stores for it. *)
Lemma cancelled_job_reported_finished :
  (_state <$> future_of (state_after queued) "job1") = Some PENDING /\
  snd (cancel (state_after queued) "job1") = true /\
  exists self',
    exec (fst (cancel (state_after queued) "job1")) cancelled_then_polled = Some self' /\
    (_state <$> future_of self' "job1") = Some CANCELLED_AND_NOTIFIED /\
    get_status self' "job1" =
      (Some "finished",
       Some (<["success" := VBool false]> (<["error" := VStr EmptyString]> ∅))).
Proof.
  split; [reflexivity|]. split; [reflexivity|].
  eexists. split; [vm_compute; reflexivity|].
  split; vm_compute; reflexivity.
Qed.



(** * Further properties of the strategy chain *)

Section MoreChainProperties.

Variable py_str : value -> string.

Implicit Types (scraper s : Scraper) (url : string) (errors : list string).

Lemma snd_after (log : list call) (r : run) : snd (after log r) = snd r.
Proof. done. Qed.

(** A forwarded result differs from the scraper's only at [metadata]. *)
Lemma forward_success_frame scraper_name result forwarded k :
  forward_success scraper_name result = Return forwarded ->
  k <> "metadata" ->
  forwarded !! k = result !! k.
Proof.
  unfold forward_success, setdefault, dict_get. intros Hf Hk.
  destruct (result !! "metadata") as [v|] eqn:Hm.
  - rewrite Hm in Hf. simpl in Hf. destruct v; simplify_eq.
    by rewrite lookup_insert_ne.
  - rewrite lookup_insert_eq in Hf. simpl in Hf. simplify_eq.
    by rewrite !lookup_insert_ne.
Qed.

(** On members that keep the declared return type, the loop over
    members is [scrape_loop]. *)
Lemma scrape_loop_members_declared chain i url errors :
  scrape_loop_members py_str (as_member <$> chain) i url errors =
  scrape_loop py_str chain i url errors.
Proof.
  revert i errors. induction chain as [|s rest IH]; intros i errors; [done|].
  cbn [fmap list_fmap scrape_loop_members scrape_loop].
  change (member_guard i (as_member s) url) with (guard i s url).
  destruct (guard i s url) as [asked go].
  destruct (negb go); [by rewrite <- IH|].
  simpl. destruct (scrape s url) as [result|exc]; [|by rewrite <- IH].
  destruct (truthy (dict_get "success" result)); [done|by rewrite <- IH].
Qed.

(** X1. [CombinedScraper.scrape] does not raise, whatever its scrapers
    raise in [can_handle] or [scrape], as long as every object a
    scraper's [scrape] returns is a dictionary whose [metadata] entry is
    absent or a dictionary: it then returns a dictionary.  (A returned
    object that is not a dictionary makes line 108 raise, and a
    [metadata] that is not a dictionary makes line 111 raise.) *)
Theorem chain_returns_dictionary (members : list Member) url :
  (forall m v, m ∈ members -> member_scrape m url = Return v ->
               exists result, v = VDict result /\ metadata_ok result = true) ->
  exists result, snd (scrape_loop_members py_str members 0 url []) = Return result.
Proof.
  generalize 0 (@nil string).
  induction members as [|m rest IH]; intros i errors Hok.
  - simpl. eauto.
  - assert (forall j errs, exists result,
              snd (scrape_loop_members py_str rest j url errs) = Return result)
      as Hrest.
    { intros j errs. apply IH. intros t v Ht. apply Hok.
      apply elem_of_cons. by right. }
    cbn [scrape_loop_members].
    destruct (member_guard i m url) as [asked go].
    destruct (negb go); [by rewrite snd_after|].
    destruct (member_scrape m url) as [v|exc] eqn:Hres;
      [|by rewrite snd_after].
    destruct (Hok m v) as (result & -> & Hmeta);
      [apply elem_of_cons; by left|done|].
    destruct (truthy (dict_get "success" result)); [|by rewrite snd_after].
    simpl. rewrite (forward_success_ok _ _ Hmeta). eauto.
Qed.

(** X2. The dictionary [CombinedScraper.scrape] returns has a true
    [success] entry exactly when some scraper of the chain is called and
    returns a result whose [success] is true. *)
Theorem success_flag_iff_some_scraper_succeeds self url result :
  snd (combined_scrape py_str self url) = Return result ->
  truthy (dict_get "success" result) =
  existsb (fun s => succeeds s url) (scrapers self).
Proof.
  unfold combined_scrape. generalize 0 (@nil string).
  induction (scrapers self) as [|s rest IH]; intros i errors Hrun.
  - simpl in Hrun. by simplify_eq.
  - cbn [existsb]. destruct (succeeds s url) eqn:Hs.
    + unfold succeeds in Hs. apply andb_true_iff in Hs as [Hgo Hsucc].
      destruct (scrape s url) as [r|] eqn:Hres; [|done].
      rewrite (scrape_loop_hit py_str _ _ _ _ _ _ Hgo Hres Hsucc) in Hrun.
      simpl in Hrun. unfold dict_get in *.
      by rewrite (forward_success_frame _ _ _ "success" Hrun).
    + rewrite (scrape_loop_pass py_str _ _ _ _ _ Hs), snd_after in Hrun.
      by apply IH in Hrun.
Qed.

(** The outcome of the loop does not depend on the positions logged. *)
Lemma loop_outcome_position chain i j url errors :
  snd (scrape_loop py_str chain i url errors) =
  snd (scrape_loop py_str chain j url errors).
Proof.
  revert i j errors. induction chain as [|s rest IH]; intros i j errors; [done|].
  destruct (succeeds s url) eqn:Hs.
  - unfold succeeds in Hs. apply andb_true_iff in Hs as [Hgo Hsucc].
    destruct (scrape s url) as [r|] eqn:Hres; [|done].
    by rewrite !(scrape_loop_hit py_str _ _ _ _ _ _ Hgo Hres Hsucc).
  - rewrite !(scrape_loop_pass py_str _ _ _ _ _ Hs), !snd_after. apply IH.
Qed.

(** X3. A scraper the chain skips has no effect on the outcome: the
    chain without it returns the same. *)
Theorem skipped_scraper_is_irrelevant before s behind url :
  attempted s url = false ->
  snd (combined_scrape py_str (mkCombined (before ++ s :: behind)) url) =
  snd (combined_scrape py_str (mkCombined (before ++ behind)) url).
Proof.
  intros Hskip. unfold combined_scrape. simpl. generalize 0 (@nil string).
  induction before as [|t before IH]; intros i errors.
  - simpl app.
    assert (succeeds s url = false) as Hs by (unfold succeeds; by rewrite Hskip).
    rewrite (scrape_loop_pass py_str _ _ _ _ _ Hs), snd_after.
    unfold failure_of. rewrite Hskip. apply loop_outcome_position.
  - cbn [app]. destruct (succeeds t url) eqn:Ht.
    + unfold succeeds in Ht. apply andb_true_iff in Ht as [Hgo Hsucc].
      destruct (scrape t url) as [r|] eqn:Hres; [|done].
      by rewrite !(scrape_loop_hit py_str _ _ _ _ _ _ Hgo Hres Hsucc).
    + rewrite !(scrape_loop_pass py_str _ _ _ _ _ Ht), !snd_after. apply IH.
Qed.

Lemma calls_of_sorted i s url :
  StronglySorted lt (call_rank <$> calls_of i s url) /\
  Forall (fun c => 2 * i <= call_rank c < 2 * S i) (calls_of i s url).
Proof.
  unfold calls_of. rewrite guard_calls.
  destruct (String.eqb _ _), (attempted s url); simpl;
    (split;
     [repeat first [apply SSorted_nil | apply SSorted_cons
                   | apply List.Forall_nil | apply List.Forall_cons]
     |repeat first [apply List.Forall_nil | apply List.Forall_cons]]);
    simpl; lia.
Qed.

Lemma loop_calls_sorted chain i url errors :
  StronglySorted lt (call_rank <$> fst (scrape_loop py_str chain i url errors)) /\
  Forall (fun c => 2 * i <= call_rank c)
         (fst (scrape_loop py_str chain i url errors)).
Proof.
  revert i errors. induction chain as [|s rest IH]; intros i errors.
  - simpl. split; constructor.
  - rewrite loop_head_calls.
    destruct (calls_of_sorted i s url) as [Hsorted Hrange].
    destruct (succeeds s url).
    + rewrite app_nil_r. split; [done|].
      eapply Forall_impl; [exact Hrange|]. simpl. intros c Hc. lia.
    + destruct (IH (S i) (failure_of py_str s url errors)) as [IHs IHr].
      split.
      * rewrite fmap_app. apply StronglySorted_app_2; [|done|done].
        intros x1 x2 H1 H2.
        apply list_elem_of_fmap in H1 as (c1 & -> & H1).
        apply list_elem_of_fmap in H2 as (c2 & -> & H2).
        rewrite Forall_forall in Hrange, IHr.
        specialize (Hrange c1 H1). specialize (IHr c2 H2). lia.
      * apply Forall_app. split.
        -- eapply Forall_impl; [exact Hrange|]. simpl. intros c Hc. lia.
        -- eapply Forall_impl; [exact IHr|]. simpl. intros c Hc. lia.
Qed.

(** X4. The calls of one run are in chain order, [can_handle] before
    [scrape] for each scraper, and no method of a scraper is called
    twice. *)
Theorem calls_in_chain_order_without_repeats self url :
  StronglySorted lt (call_rank <$> fst (combined_scrape py_str self url)) /\
  NoDup (fst (combined_scrape py_str self url)).
Proof.
  destruct (loop_calls_sorted (scrapers self) 0 url []) as [Hsorted _].
  split; [done|].
  unfold combined_scrape.
  induction (fst (scrape_loop py_str (scrapers self) 0 url [])) as [|c log IH].
  - constructor.
  - rewrite fmap_cons in Hsorted.
    apply StronglySorted_cons in Hsorted as [Hlt Hrest].
    constructor; [|by apply IH].
    intros Hin. rewrite Forall_forall in Hlt.
    specialize (Hlt (call_rank c)).
    assert (call_rank c ∈ call_rank <$> log) as Hc
      by (apply list_elem_of_fmap; eauto).
    apply Hlt in Hc. lia.
Qed.

End MoreChainProperties.

Section ChainConstruction.

Variable py_str : value -> string.

Implicit Types (scraper s : Scraper) (url : string) (errors : list string).

Lemma attempted_as_scraper (inner : CombinedScraper) url :
  attempted (as_scraper py_str inner) url = true.
Proof. done. Qed.

(** X5. A [CombinedScraper] placed in another chain: when its own
    chain succeeds through scraper [s], the outer chain returns [s]'s
    result with [metadata.scraper] set to "combined"; the name of [s]
    is overwritten, the other entries are those of [s]'s result. *)
Theorem nested_chain_reports_combined inner passed s rest outer_passed outer_rest
    url result :
  scrapers inner = passed ++ s :: rest ->
  Forall (fun t => succeeds t url = false) passed ->
  attempted s url = true ->
  scrape s url = Return result ->
  truthy (dict_get "success" result) = true ->
  metadata_ok result = true ->
  Forall (fun t => succeeds t url = false) outer_passed ->
  snd (combined_scrape py_str
         (mkCombined (outer_passed ++ as_scraper py_str inner :: outer_rest)) url) =
  Return (<["metadata" := VDict (<["scraper" := VStr "combined"]> (metadata_of result))]>
            result).
Proof.
  intros Hchain Hpassed Hgo Hres Hok Hmeta Houter.
  pose proof (run_to_first_success py_str _ _ _ _ _ _ Hchain Hpassed Hgo Hres Hok)
    as Hinner.
  rewrite (forward_success_ok _ _ Hmeta) in Hinner.
  set (forwarded := <["metadata" := _]> result) in Hinner.
  assert (scrape (as_scraper py_str inner) url = Return forwarded) as Hscrape
    by (simpl; by rewrite Hinner).
  assert (truthy (dict_get "success" forwarded) = true) as Hok'.
  { unfold dict_get, forwarded. by rewrite lookup_insert_ne. }
  rewrite (run_to_first_success py_str
             (mkCombined (outer_passed ++ as_scraper py_str inner :: outer_rest))
             outer_passed (as_scraper py_str inner) outer_rest url forwarded
             eq_refl Houter (attempted_as_scraper inner url) Hscrape Hok').
  simpl snd. rewrite forward_success_ok.
  - f_equal. unfold forwarded, metadata_of at 1.
    rewrite lookup_insert_eq, !insert_insert_eq. done.
  - unfold metadata_ok, forwarded. by rewrite lookup_insert_eq.
Qed.

(** X6. A [CombinedScraper] placed alone in another chain: when none of
    its own scrapers succeeds, the outer chain fails with the single
    entry "combined: All scraping strategies failed"; the errors the
    inner chain collected are not passed on. *)
Theorem nested_chain_failure_entry inner url :
  py_str (VStr "All scraping strategies failed") = "All scraping strategies failed" ->
  Forall (fun t => succeeds t url = false) (scrapers inner) ->
  snd (combined_scrape py_str (mkCombined [as_scraper py_str inner]) url) =
  Return (all_failed ["combined: All scraping strategies failed"]).
Proof.
  intros Hstr Hall.
  pose proof (run_exhausted py_str _ _ Hall) as Hinner.
  unfold combined_scrape at 1. simpl scrapers.
  assert (succeeds (as_scraper py_str inner) url = false) as Hs.
  { unfold succeeds. simpl. by rewrite Hinner. }
  rewrite (scrape_loop_pass py_str _ _ _ _ _ Hs), snd_after. simpl.
  do 2 f_equal. unfold failure_of. simpl. rewrite Hinner. simpl.
  unfold record_error, all_failed. simplify_map_eq. by rewrite Hstr.
Qed.

(** X7. [ApiScraper], wherever it stands in a chain, is never
    executed by [CombinedScraper.scrape]. *)
Theorem api_scraper_never_executed self url i :
  scrapers self !! i = Some ApiScraper ->
  Call_scrape i ∉ fst (combined_scrape py_str self url).
Proof.
  intros Hi Hcall.
  apply loop_scrape_call in Hcall as [_ (s & Hs & Hgo)].
  rewrite Nat.sub_0_r, Hi in Hs. by simplify_eq.
Qed.

Lemma instantiate_app user_agent (l1 l2 : list scraper_spec) :
  instantiate user_agent (l1 ++ l2) =
  instantiate user_agent l1 ++ instantiate user_agent l2.
Proof.
  induction l1 as [|[scr|cls] l1 IH]; simpl; [done|by rewrite IH|].
  destruct (cls user_agent); by rewrite IH.
Qed.

(** X8. In [CombinedScraper.__init__] a class whose constructor raises
    is left out, and the entries before and after it are instantiated
    as without it; a class whose constructor returns contributes its
    instance at its place. *)
Theorem instantiate_class before cls behind user_agent :
  (forall msg, cls user_agent = Raise msg ->
     instantiate user_agent (before ++ Class cls :: behind) =
     instantiate user_agent (before ++ behind)) /\
  (forall instance, cls user_agent = Return instance ->
     instantiate user_agent (before ++ Class cls :: behind) =
     instantiate user_agent before ++ instance :: instantiate user_agent behind).
Proof.
  split; intros x Hx; rewrite !instantiate_app; simpl; by rewrite Hx.
Qed.

(** X9. When the list given to [CombinedScraper.__init__] holds only
    classes whose constructors raise (or is empty), [scrape] calls
    nothing and returns the failure dictionary with an empty [errors]
    list. *)
Theorem scrape_without_scrapers specs user_agent url :
  Forall (fun spec => exists cls msg,
                        spec = Class cls /\ cls user_agent = Raise msg) specs ->
  combined_scrape py_str (CombinedScraper_init user_agent specs) url =
  ([], Return (all_failed [])).
Proof.
  intros Hall.
  assert (instantiate user_agent specs = []) as Hnone.
  { induction Hall as [|spec specs (cls & msg & -> & Hcls) _ IH]; [done|].
    simpl. by rewrite Hcls. }
  unfold combined_scrape, CombinedScraper_init. simpl. by rewrite Hnone.
Qed.

End ChainConstruction.

(** * Further properties of the task manager *)

Lemma foldl_insert_lookup {V} (f : string -> V) (l : list string)
    (m : gmap string V) (k : string) :
  foldl (fun acc j => <[j := f j]> acc) m l !! k =
  if bool_decide (k ∈ l) then Some (f k) else m !! k.
Proof.
  revert m. induction l as [|j l IH]; intros m; cbn [foldl].
  - case_bool_decide as Hin; [by apply elem_of_nil in Hin|done].
  - rewrite IH. rewrite (lookup_insert m j k).
    repeat case_bool_decide; repeat case_decide; subst; try done;
      exfalso;
      repeat match goal with
             | H : context [_ ∈ _ :: _] |- _ => rewrite elem_of_cons in H
             end;
      intuition congruence.
Qed.

(** [list_jobs] has one entry for each key of [self._futures]. *)
Lemma list_jobs_lookup self job_id :
  list_jobs self !! job_id =
  match _futures self !! job_id with
  | Some _ => Some (job_entry (Tasks.get_status self job_id))
  | None => None
  end.
Proof.
  unfold list_jobs.
  rewrite (foldl_insert_lookup (fun j => job_entry (Tasks.get_status self j))).
  destruct (_futures self !! job_id) as [a|] eqn:Ha.
  - rewrite bool_decide_eq_true_2; [done|].
    apply list_elem_of_fmap. exists (job_id, a). split; [done|].
    by apply elem_of_map_to_list.
  - rewrite bool_decide_eq_false_2; [by rewrite lookup_empty|].
    intros Hin. apply list_elem_of_fmap in Hin as ([j a] & -> & Hin).
    apply elem_of_map_to_list in Hin. simpl in Ha. congruence.
Qed.

(** X10. In every state the task manager can reach, [list_jobs] lists
    exactly the identifiers [submit] has stored; each entry has the
    status [get_status] returns for the job, "pending" without a
    [result] key or "finished" with a [result] key holding the result
    [get_status] returns ([None] when there is none). *)
Theorem list_jobs_entries evs self job_id :
  exec init evs = Some self ->
  (list_jobs self !! job_id = None <-> issued evs job_id = false) /\
  (forall entry, list_jobs self !! job_id = Some entry ->
     (Tasks.get_status self job_id = (Some "pending", None) /\
      entry !! "status" = Some (VStr "pending") /\
      entry !! "result" = None) \/
     (fst (Tasks.get_status self job_id) = Some "finished" /\
      entry !! "status" = Some (VStr "finished") /\
      entry !! "result" =
        Some (from_option VDict VNone (snd (Tasks.get_status self job_id))))).
Proof.
  intros Hexec. rewrite list_jobs_lookup.
  pose proof (exec_issued _ _ _ job_id Hexec) as Hissued.
  simpl in Hissued. rewrite lookup_empty in Hissued.
  split.
  - rewrite Hissued. by destruct (issued evs job_id).
  - intros entry Hentry.
    destruct (_futures self !! job_id) as [a|] eqn:Ha; [|done].
    injection Hentry as <-.
    unfold Tasks.get_status, get_status_locked, get_status_report.
    rewrite Ha. simpl.
    destruct (from_option done false (heap self !! a)); [right|left];
      unfold job_entry; simpl; by simplify_map_eq.
Qed.

Lemma future_change_done b ev x y :
  future_change b ev x y ->
  from_option done false x = true -> from_option done false y = true.
Proof.
  intros Hch.
  destruct Hch as [ev x| | j f Hcb | f f0 Hclaim | f f0 o Hfin
                  | f o Hcb Ho | j f]; simpl; try done.
  - unfold set_running_or_notify_cancel, done in *.
    by destruct (_state f); simplify_eq/=.
  - unfold set_outcome, done in *. by destruct (_state f); simplify_eq/=.
  - unfold future_cancel, done.
    destruct (_state f) eqn:Hst; simpl; rewrite ?Hst; done.
Qed.

Lemma exec_done evs self self' a :
  exec self evs = Some self' ->
  from_option done false (heap self !! a) = true ->
  from_option done false (heap self' !! a) = true.
Proof.
  intros Hexec Hs.
  apply (exec_invariant (fun s => from_option done false (heap s !! a) = true))
    with (evs := evs) (self := self); [|done|done].
  intros s ev s' Hd Hstep.
  by eapply future_change_done, Hd; apply step_future_change.
Qed.

(** X11. The status [get_status] reports for a job only moves forward:
    an identifier that is known stays known, and a job reported as
    "finished" is never reported as "pending" again. *)
Theorem status_only_advances evs self self' job_id :
  exec self evs = Some self' ->
  status_rank (fst (Tasks.get_status self job_id)) <=
  status_rank (fst (Tasks.get_status self' job_id)).
Proof.
  intros Hexec.
  unfold Tasks.get_status, get_status_locked, get_status_report. simpl.
  destruct (_futures self !! job_id) as [a|] eqn:Ha; simpl; [|lia].
  rewrite (exec_futures_stable _ _ _ _ _ Hexec Ha).
  destruct (from_option done false (heap self !! a)) eqn:Hd; simpl.
  - by rewrite (exec_done _ _ _ _ Hexec Hd).
  - destruct (from_option done false (heap self' !! a)); simpl; lia.
Qed.

(** A result that is stored stays as it is. *)
Lemma exec_result_stable evs self self' job_id r :
  results_inv self ->
  exec self evs = Some self' ->
  _results self !! job_id = Some r ->
  _results self' !! job_id = Some r.
Proof.
  intros Hinv Hexec Hr.
  apply (exec_invariant
           (fun s => results_inv s /\ _results s !! job_id = Some r))
    with (evs := evs) (self := self) in Hexec; [by destruct Hexec|..|done].
  intros s ev s' [Hi Hs] Hstep. split; [by eapply results_inv_step|].
  pose proof (step_results _ _ _ Hstep) as Hres.
  destruct ev as [j|j|j|b|b o|j|j]; try (by rewrite Hres).
  destruct Hres as (f & o & Hf & Hcb & _ & ->).
  destruct (decide (j = job_id)) as [->|Hne].
  - apply Hi in Hs. unfold is_ran in Hs. rewrite Hf, Hcb in Hs. done.
  - by rewrite lookup_insert_ne.
Qed.

(** X12. Once [get_status] has returned "finished" with a result for a
    job, it returns "finished" with that same result in every later
    state: a stored result is never replaced or removed. *)
Theorem finished_result_is_final evs0 self evs self' job_id r :
  exec init evs0 = Some self ->
  exec self evs = Some self' ->
  Tasks.get_status self job_id = (Some "finished", Some r) ->
  Tasks.get_status self' job_id = (Some "finished", Some r).
Proof.
  intros Hreach Hexec.
  unfold Tasks.get_status, get_status_locked, get_status_report. simpl.
  destruct (_futures self !! job_id) as [a|] eqn:Ha; simpl; [|done].
  rewrite (exec_futures_stable _ _ _ _ _ Hexec Ha). simpl.
  destruct (from_option done false (heap self !! a)) eqn:Hd; [|done].
  rewrite (exec_done _ _ _ _ Hexec Hd).
  intros Hr. injection Hr as Hr.
  by rewrite (exec_result_stable _ _ _ _ _
                (reachable_results_inv _ _ Hreach) Hexec Hr).
Qed.

Lemma task_manager_eta self :
  mkTaskManager (heap self) (_futures self) (_results self) = self.
Proof. by destruct self. Qed.

(** X13. A call of [cancel] that returns [False] changes nothing, and
    [cancel] is idempotent: a second call for the same job returns the
    same flag and leaves the state the first call produced. *)
Theorem cancel_idempotent self job_id :
  (snd (cancel self job_id) = false -> fst (cancel self job_id) = self) /\
  cancel (fst (cancel self job_id)) job_id = cancel self job_id.
Proof.
  unfold cancel.
  destruct (_futures self !! job_id) as [a|] eqn:Ha;
    [|simpl; by rewrite Ha].
  destruct (heap self !! a) as [f|] eqn:Hf;
    [|simpl; by rewrite Ha, Hf].
  unfold future_cancel.
  destruct (_state f) eqn:Hst; simpl; rewrite ?Ha, ?lookup_insert_eq; simpl;
    rewrite ?Hst, ?insert_insert_eq, ?(insert_id _ _ _ Hf), ?task_manager_eta;
    done.
Qed.

(** X14. In every state the task manager can reach, a call of [cancel]
    touches only its own job.  The call is the state change of
    [Future.cancel()] followed, for a job it cancels in the queue with
    its callback registered, by that callback; it returns the flag of
    the state change; [self._futures], every other future and every
    other stored result are as before; a call that returns [False]
    changes nothing; and when it cancels a queued job whose callback is
    registered, [{"success": False, "error": ""}] is stored for the job
    by the time it returns. *)
Theorem cancel_frame evs self job_id :
  exec init evs = Some self ->
  snd (cancel_call self job_id) = snd (cancel self job_id) /\
  (exec (fst (cancel self job_id)) [] = Some (fst (cancel_call self job_id)) \/
   exec (fst (cancel self job_id)) [Callback_run job_id] =
     Some (fst (cancel_call self job_id))) /\
  _futures (fst (cancel_call self job_id)) = _futures self /\
  (forall j, j <> job_id ->
     heap (fst (cancel_call self job_id)) !! j = heap self !! j /\
     _results (fst (cancel_call self job_id)) !! j = _results self !! j) /\
  (snd (cancel_call self job_id) = false -> fst (cancel_call self job_id) = self) /\
  (forall f, future_of self job_id = Some f ->
     _state f = PENDING -> _done_callback f = Waiting ->
     _results (fst (cancel_call self job_id)) !! job_id =
       Some (<["success" := VBool false]> (<["error" := VStr EmptyString]> ∅))).
Proof.
  intros Hexec.
  destruct (reachable_invariants _ _ Hexec) as [Hfut _].
  unfold cancel_call, cancel, future_of.
  destruct (_futures self !! job_id) as [a|] eqn:Ha; simpl;
    [|repeat split; auto; done].
  pose proof (Hfut _ _ Ha) as ->.
  destruct (heap self !! job_id) as [f|] eqn:Hf; simpl;
    [|repeat split; auto; done].
  unfold future_cancel.
  destruct (_state f) eqn:Hst; simpl.
  - (* a queued job *)
    rewrite lookup_insert_eq. simpl.
    destruct (_done_callback f) eqn:Hcb; simpl;
      (split; [done|]); (split; [auto|]); (split; [done|]);
      (split; [intros j Hj; by rewrite ?lookup_insert_ne by done|]);
      (split; [done|]); intros f0 [= <-] _ Hw; try congruence.
    by rewrite lookup_insert_eq.
  - (* running *)
    rewrite (insert_id _ _ _ Hf), task_manager_eta.
    repeat split; auto. intros f0 [= <-]. congruence.
  - rewrite (insert_id _ _ _ Hf), task_manager_eta.
    repeat split; auto; try done. intros f0 [= <-]. congruence.
  - rewrite (insert_id _ _ _ Hf), task_manager_eta.
    repeat split; auto; try done. intros f0 [= <-]. congruence.
  - rewrite (insert_id _ _ _ Hf), task_manager_eta.
    repeat split; auto. intros f0 [= <-]. congruence.
Qed.

(** X15. In every state the task manager can reach, a job whose future
    is cancelled and whose callback has returned has the result
    [{"success": False, "error": ""}], and [get_status] reports it as
    "finished" with that result. *)
Theorem cancelled_job_result evs self job_id f :
  exec init evs = Some self ->
  future_of self job_id = Some f ->
  _state f = CANCELLED \/ _state f = CANCELLED_AND_NOTIFIED ->
  _done_callback f = Ran ->
  Tasks.get_status self job_id =
    (Some "finished",
     Some (<["success" := VBool false]> (<["error" := VStr EmptyString]> ∅))).
Proof.
  intros Hexec Hf Hst Hran.
  destruct (reachable_invariants _ _ Hexec) as [Hfut Hcb].
  unfold Tasks.get_status, get_status_locked, get_status_report, future_of in *.
  destruct (_futures self !! job_id) as [a|] eqn:Ha; simpl in *; [|done].
  apply Hfut in Ha as ->. rewrite Hf. simpl.
  destruct (Hcb _ _ Hf Hran) as (o & Ho & ->).
  unfold future_result, done in *.
  by destruct Hst as [Hst|Hst]; rewrite Hst in *; simplify_eq.
Qed.

(** * Properties of the endpoints *)

(** X17. In every state the task manager can reach, and when the
    legacy [scraped_data] has nothing for the identifier, the endpoints
    [/status], [/cancel] and [/data] answer 404 "Job not found" for an
    identifier [submit] has not stored, [/cancel] then leaving the task
    manager as it is; for a stored identifier all three answer 200. *)
Theorem endpoints_not_found evs self job_id (scraped_data : gmap string dict) :
  exec init evs = Some self ->
  truthy (App.json_of (scraped_data !! job_id)) = false ->
  (issued evs job_id = false ->
   App.get_status self job_id = App.not_found /\
   App.cancel_job self job_id = (self, App.not_found) /\
   App.get_data scraped_data self job_id = App.not_found) /\
  (issued evs job_id = true ->
   snd (App.get_status self job_id) = 200 /\
   snd (snd (App.cancel_job self job_id)) = 200 /\
   snd (App.get_data scraped_data self job_id) = 200).
Proof.
  intros Hexec Hlegacy.
  pose proof (exec_issued _ _ _ job_id Hexec) as Hissued.
  simpl in Hissued. rewrite lookup_empty in Hissued.
  unfold App.get_status, App.cancel_job, App.get_data.
  rewrite Hlegacy.
  unfold Tasks.get_status, get_status_locked, get_status_report. simpl.
  rewrite Hissued. split; intros ->; simpl; [done|].
  destruct (from_option done false (heap self !! job_id)); simpl;
    by destruct (cancel self job_id).
Qed.

(** X18. For a job [get_status] reports as "finished", the body of
    [/data] (the legacy [scraped_data] having nothing for the job) is
    the [result] member of the body of [/status]; for a job reported as
    "pending" both endpoints return the same [{"status": "pending"}]. *)
Theorem data_is_result_of_status self job_id status
    (scraped_data : gmap string dict) :
  truthy (App.json_of (scraped_data !! job_id)) = false ->
  fst (Tasks.get_status self job_id) = Some status ->
  (status = "pending" /\
   App.get_status self job_id = App.pending /\
   App.get_data scraped_data self job_id = App.pending) \/
  (status = "finished" /\
   exists body,
     App.get_status self job_id = (VDict body, 200) /\
     body !! "status" = Some (VStr "finished") /\
     body !! "result" = Some (fst (App.get_data scraped_data self job_id))).
Proof.
  intros Hlegacy. unfold App.get_status, App.get_data. rewrite Hlegacy.
  unfold Tasks.get_status, get_status_locked, get_status_report. simpl.
  destruct (_futures self !! job_id) as [a|]; simpl; [|done].
  destruct (from_option done false (heap self !! a)); simpl; intros [= <-].
  - right. split; [done|]. eexists. split; [done|]. by simplify_map_eq.
  - by left.
Qed.

(** X19. In every state the task manager can reach, when [/cancel]
    answers [{"cancelled": true}], no pool thread has begun to execute
    the job's work, and [/status] reports the job as "finished" from
    then on. *)
Theorem cancel_job_true evs self job_id self' body :
  exec init evs = Some self ->
  App.cancel_job self job_id = (self', (VDict body, 200)) ->
  body !! "cancelled" = Some (VBool true) ->
  ever_running init evs job_id = false /\
  forall evs' self'',
    exec self' evs' = Some self'' ->
    exists body', App.get_status self'' job_id = (VDict body', 200) /\
                  body' !! "status" = Some (VStr "finished").
Proof.
  intros Hexec Hcancel Htrue.
  destruct (reachable_invariants _ _ Hexec) as [Hfut _].
  unfold App.cancel_job, Tasks.get_status, get_status_locked,
    get_status_report in Hcancel. simpl in Hcancel.
  destruct (_futures self !! job_id) as [a|] eqn:Ha; simpl in Hcancel;
    [|by simplify_eq].
  pose proof (Hfut _ _ Ha) as ->.
  assert (snd (cancel self job_id) = true /\ fst (cancel self job_id) = self')
    as [Hflag Hstate].
  { destruct (from_option done false (heap self !! job_id));
      simpl in Hcancel; destruct (cancel self job_id) as [s c];
      simplify_eq; simpl; by simplify_map_eq. }
  clear Hcancel. unfold cancel in Hflag, Hstate. rewrite Ha in Hflag, Hstate.
  destruct (heap self !! job_id) as [f|] eqn:Hf; [|done].
  split.
  - destruct (ever_running init evs job_id) eqn:Hever; [|done].
    pose proof (ever_running_started _ _ _ _ Hexec Hever) as Hs.
    rewrite Hf in Hs. unfold has_started in Hs.
    unfold future_cancel in Hflag. by destruct (_state f).
  - intros evs' self'' Hexec'.
    assert (from_option done false (heap self' !! job_id) = true) as Hdone.
    { subst self'. unfold future_cancel, done in *.
      destruct (_state f) eqn:Hst; simpl in *; try done;
        rewrite lookup_insert_eq; simpl; by rewrite ?Hst. }
    assert (_futures self' !! job_id = Some job_id) as Ha'.
    { subst self'. by destruct (future_cancel f). }
    pose proof (exec_done _ _ _ _ Hexec' Hdone) as Hdone'.
    pose proof (exec_futures_stable _ _ _ _ _ Hexec' Ha') as Ha''.
    unfold App.get_status, Tasks.get_status, get_status_locked,
      get_status_report. simpl. rewrite Ha''. simpl. rewrite Hdone'. simpl.
    eexists. split; [done|]. by simplify_map_eq.
Qed.

(** * Properties of the proxy configuration *)

Section Proxy.

Import Utils.

(** X20. [get_proxy_dict] returns [None] exactly when none of the four
    variables is set to a non-empty string. *)
Theorem get_proxy_dict_none_iff (environ : gmap string string) :
  get_proxy_dict environ = None <->
  first_set environ ["SCRAPER_HTTP_PROXY"; "HTTP_PROXY";
                     "SCRAPER_HTTPS_PROXY"; "HTTPS_PROXY"] = None.
Proof.
  unfold get_proxy_dict, py_or. simpl.
  destruct (environ !! "SCRAPER_HTTP_PROXY") as [[|??]|];
    destruct (environ !! "HTTP_PROXY") as [[|??]|];
    destruct (environ !! "SCRAPER_HTTPS_PROXY") as [[|??]|];
    destruct (environ !! "HTTPS_PROXY") as [[|??]|]; simpl; done.
Qed.

(** X21. When [get_proxy_dict] returns a dictionary, it has exactly the
    keys [http] and [https], both with non-empty values: [http] is the
    first non-empty of SCRAPER_HTTP_PROXY, HTTP_PROXY,
    SCRAPER_HTTPS_PROXY, HTTPS_PROXY, and [https] the first non-empty of
    SCRAPER_HTTPS_PROXY, HTTPS_PROXY, SCRAPER_HTTP_PROXY, HTTP_PROXY. *)
Theorem get_proxy_dict_both_schemes (environ proxies : gmap string string) :
  get_proxy_dict environ = Some proxies ->
  proxies !! "http" =
    first_set environ ["SCRAPER_HTTP_PROXY"; "HTTP_PROXY";
                       "SCRAPER_HTTPS_PROXY"; "HTTPS_PROXY"] /\
  proxies !! "https" =
    first_set environ ["SCRAPER_HTTPS_PROXY"; "HTTPS_PROXY";
                       "SCRAPER_HTTP_PROXY"; "HTTP_PROXY"] /\
  is_set (proxies !! "http") = true /\
  is_set (proxies !! "https") = true /\
  forall scheme, scheme <> "http" -> scheme <> "https" ->
                 proxies !! scheme = None.
Proof.
  unfold get_proxy_dict, py_or. simpl.
  destruct (environ !! "SCRAPER_HTTP_PROXY") as [[|??]|];
    destruct (environ !! "HTTP_PROXY") as [[|??]|];
    destruct (environ !! "SCRAPER_HTTPS_PROXY") as [[|??]|];
    destruct (environ !! "HTTPS_PROXY") as [[|??]|]; simpl;
    intros Hp; simplify_eq;
    (repeat split; [..|intros scheme H1 H2]); by simplify_map_eq.
Qed.

End Proxy.

(** * The further properties on concrete inputs *)

Lemma chain_returns_dictionary_witness :
  exists result,
    snd (scrape_loop_members str_of
           (as_member <$> [file_on_html; dynamic; static_ok]) 0 page []) =
    Return result.
Proof.
  apply (chain_returns_dictionary str_of
           (as_member <$> [file_on_html; dynamic; static_ok]) page).
  intros m v Hm Hres. simpl in Hm.
  rewrite !elem_of_cons in Hm.
  destruct Hm as [->|[->|[->|Hm]]];
    [| | |by apply elem_of_nil in Hm]; simpl in Hres; simplify_eq;
    eexists; (split; [reflexivity|vm_compute; reflexivity]).
Defined.

(** Outside the hypothesis of X1: a called scraper whose [scrape]
    returns [None] makes line 108 raise an [AttributeError], which
    [CombinedScraper.scrape] does not catch; the scrapers after it are
    not called. *)
Example non_dictionary_result_raises :
  scrape_loop_members str_of [as_member api; forgetful; as_member static_ok] 0 page [] =
  ([Call_can_handle 0; Call_can_handle 1; Call_scrape 1],
   Raise "'NoneType' object has no attribute 'get'").
Proof. vm_compute. reflexivity. Qed.

Lemma success_flag_iff_some_scraper_succeeds_witness :
  truthy (dict_get "success"
            (<["metadata" := VDict (<["scraper" := VStr "static"]>
                                      (metadata_of parsed))]> parsed)) =
  existsb (fun s => succeeds s page) [file_on_html; api; static_ok].
Proof.
  apply (success_flag_iff_some_scraper_succeeds str_of
           (mkCombined [file_on_html; api; static_ok]) page).
  vm_compute. reflexivity.
Defined.

Lemma skipped_scraper_is_irrelevant_witness :
  snd (combined_scrape str_of (mkCombined ([file_on_html] ++ api :: [static_ok])) page) =
  snd (combined_scrape str_of (mkCombined ([file_on_html] ++ [static_ok])) page).
Proof.
  apply (skipped_scraper_is_irrelevant str_of [file_on_html] api [static_ok] page).
  reflexivity.
Defined.

Lemma nested_chain_reports_combined_witness :
  snd (combined_scrape str_of
         (mkCombined ([api] ++ as_scraper str_of (mkCombined [file_on_html; static_ok])
                             :: [dynamic])) page) =
  Return (<["metadata" := VDict (<["scraper" := VStr "combined"]> (metadata_of parsed))]>
            parsed).
Proof.
  apply (nested_chain_reports_combined str_of
           (mkCombined [file_on_html; static_ok]) [file_on_html] static_ok []
           [api] [dynamic] page parsed).
  - reflexivity.
  - repeat constructor.
  - reflexivity.
  - reflexivity.
  - vm_compute. reflexivity.
  - vm_compute. reflexivity.
  - repeat constructor.
Defined.

Lemma nested_chain_failure_entry_witness :
  snd (combined_scrape str_of
         (mkCombined [as_scraper str_of (mkCombined [file_on_html; static_down])]) page) =
  Return (all_failed ["combined: All scraping strategies failed"]).
Proof.
  apply (nested_chain_failure_entry str_of
           (mkCombined [file_on_html; static_down]) page).
  - reflexivity.
  - repeat constructor.
Defined.

Lemma api_scraper_never_executed_witness :
  Call_scrape 1 ∉
    fst (combined_scrape str_of (mkCombined [file_on_html; ApiScraper; static_ok]) page).
Proof.
  apply (api_scraper_never_executed str_of
           (mkCombined [file_on_html; ApiScraper; static_ok]) page 1).
  reflexivity.
Defined.

Lemma instantiate_class_witness :
  instantiate agent ([Instance (fun _ => file_on_html)]
                       ++ Class broken_class :: [Class static_class]) =
  instantiate agent ([Instance (fun _ => file_on_html)] ++ [Class static_class]) /\
  instantiate agent ([Instance (fun _ => file_on_html)]
                       ++ Class static_class :: [Class broken_class]) =
  instantiate agent [Instance (fun _ => file_on_html)]
    ++ static_ok :: instantiate agent [Class broken_class].
Proof.
  split.
  - apply (instantiate_class [Instance (fun _ => file_on_html)] broken_class
             [Class static_class] agent) with (msg := "No module named 'selenium'").
    reflexivity.
  - apply (instantiate_class [Instance (fun _ => file_on_html)] static_class
             [Class broken_class] agent).
    reflexivity.
Defined.

Lemma scrape_without_scrapers_witness :
  combined_scrape str_of
    (CombinedScraper_init agent [Class broken_class; Class broken_class]) page =
  ([], Return (all_failed [])).
Proof.
  apply (scrape_without_scrapers str_of [Class broken_class; Class broken_class]
           agent page).
  repeat constructor; by exists broken_class, "No module named 'selenium'".
Defined.

Lemma list_jobs_entries_witness :
  (list_jobs (state_after completed) !! "job2" = None <->
   issued completed "job2" = false) /\
  (forall entry, list_jobs (state_after completed) !! "job1" = Some entry ->
     (Tasks.get_status (state_after completed) "job1" = (Some "pending", None) /\
      entry !! "status" = Some (VStr "pending") /\
      entry !! "result" = None) \/
     (fst (Tasks.get_status (state_after completed) "job1") = Some "finished" /\
      entry !! "status" = Some (VStr "finished") /\
      entry !! "result" =
        Some (from_option VDict VNone
                (snd (Tasks.get_status (state_after completed) "job1"))))).
Proof.
  split.
  - apply (list_jobs_entries completed (state_after completed) "job2").
    reflexivity.
  - apply (list_jobs_entries completed (state_after completed) "job1").
    reflexivity.
Defined.

Lemma status_only_advances_witness :
  status_rank (fst (Tasks.get_status (state_after queued) "job1")) <=
  status_rank (fst (Tasks.get_status (state_after completed) "job1")).
Proof.
  apply (status_only_advances
           [Worker_claim "job1"; Worker_finish "job1" (Return (VDict parsed));
            Callback_run "job1"]
           (state_after queued) (state_after completed) "job1").
  vm_compute. reflexivity.
Defined.

Lemma finished_result_is_final_witness :
  Tasks.get_status (default init (exec (state_after completed) afterwards)) "job1" =
  (Some "finished", Some parsed).
Proof.
  apply (finished_result_is_final completed (state_after completed) afterwards
           (default init (exec (state_after completed) afterwards)) "job1" parsed).
  - reflexivity.
  - vm_compute. reflexivity.
  - vm_compute. reflexivity.
Defined.

Lemma cancel_idempotent_witness :
  fst (cancel (state_after claimed) "job1") = state_after claimed /\
  cancel (fst (cancel (state_after queued) "job1")) "job1" =
  cancel (state_after queued) "job1".
Proof.
  split.
  - apply (cancel_idempotent (state_after claimed) "job1"). reflexivity.
  - apply (cancel_idempotent (state_after queued) "job1").
Defined.

Lemma cancel_frame_witness :
  snd (cancel_call (state_after queued) "job1") = true /\
  exec (fst (cancel (state_after queued) "job1")) [Callback_run "job1"] =
    Some (fst (cancel_call (state_after queued) "job1")) /\
  _futures (fst (cancel_call (state_after queued) "job1")) =
    _futures (state_after queued) /\
  _results (fst (cancel_call (state_after queued) "job1")) !! "job1" =
    Some (<["success" := VBool false]> (<["error" := VStr EmptyString]> ∅)).
Proof.
  destruct (cancel_frame queued (state_after queued) "job1")
    as (Hflag & _ & Hfutures & _ & _ & Hstored); [reflexivity|].
  split; [by rewrite Hflag|]. split; [reflexivity|]. split; [exact Hfutures|].
  apply (Hstored (mkFuture PENDING None Waiting)); reflexivity.
Defined.

Lemma cancelled_job_result_witness :
  Tasks.get_status (state_after cancelled) "job1" =
  (Some "finished",
   Some (<["success" := VBool false]> (<["error" := VStr EmptyString]> ∅))).
Proof.
  apply (cancelled_job_result cancelled (state_after cancelled) "job1"
           (mkFuture CANCELLED None Ran)).
  - reflexivity.
  - reflexivity.
  - left. reflexivity.
  - reflexivity.
Defined.

Lemma endpoints_not_found_witness :
  (App.get_status (state_after completed) "job2" = App.not_found /\
   App.cancel_job (state_after completed) "job2" =
     (state_after completed, App.not_found) /\
   App.get_data ∅ (state_after completed) "job2" = App.not_found) /\
  (snd (App.get_status (state_after completed) "job1") = 200 /\
   snd (snd (App.cancel_job (state_after completed) "job1")) = 200 /\
   snd (App.get_data ∅ (state_after completed) "job1") = 200).
Proof.
  split.
  - apply (endpoints_not_found completed (state_after completed) "job2" ∅);
      reflexivity.
  - apply (endpoints_not_found completed (state_after completed) "job1" ∅);
      reflexivity.
Defined.

Lemma data_is_result_of_status_witness :
  ("finished" = "pending" /\
   App.get_status (state_after completed) "job1" = App.pending /\
   App.get_data ∅ (state_after completed) "job1" = App.pending) \/
  ("finished" = "finished" /\
   exists body,
     App.get_status (state_after completed) "job1" = (VDict body, 200) /\
     body !! "status" = Some (VStr "finished") /\
     body !! "result" = Some (fst (App.get_data ∅ (state_after completed) "job1"))).
Proof.
  apply (data_is_result_of_status (state_after completed) "job1" "finished" ∅);
    reflexivity.
Defined.

Lemma cancel_job_true_witness :
  ever_running init queued "job1" = false /\
  forall evs' self'',
    exec (fst (cancel (state_after queued) "job1")) evs' = Some self'' ->
    exists body', App.get_status self'' "job1" = (VDict body', 200) /\
                  body' !! "status" = Some (VStr "finished").
Proof.
  apply (cancel_job_true queued (state_after queued) "job1"
           (fst (cancel (state_after queued) "job1"))
           (<["cancelled" := VBool true]> ∅)).
  - reflexivity.
  - vm_compute. reflexivity.
  - reflexivity.
Defined.

Lemma get_proxy_dict_none_iff_witness :
  Utils.get_proxy_dict ∅ = None.
Proof. apply (get_proxy_dict_none_iff ∅). reflexivity. Defined.

Lemma get_proxy_dict_both_schemes_witness :
  (<["https" := "http://localhost:3128"]>
     (<["http" := "http://localhost:3128"]> ∅) : gmap string string) !! "http" =
    Utils.first_set environ ["SCRAPER_HTTP_PROXY"; "HTTP_PROXY";
                             "SCRAPER_HTTPS_PROXY"; "HTTPS_PROXY"] /\
  (<["https" := "http://localhost:3128"]>
     (<["http" := "http://localhost:3128"]> ∅) : gmap string string) !! "https" =
    Utils.first_set environ ["SCRAPER_HTTPS_PROXY"; "HTTPS_PROXY";
                             "SCRAPER_HTTP_PROXY"; "HTTP_PROXY"] /\
  Utils.is_set ((<["https" := "http://localhost:3128"]>
     (<["http" := "http://localhost:3128"]> ∅) : gmap string string) !! "http") = true /\
  Utils.is_set ((<["https" := "http://localhost:3128"]>
     (<["http" := "http://localhost:3128"]> ∅) : gmap string string) !! "https") = true /\
  forall scheme, scheme <> "http" -> scheme <> "https" ->
    (<["https" := "http://localhost:3128"]>
       (<["http" := "http://localhost:3128"]> ∅) : gmap string string) !! scheme = None.
Proof.
  apply (get_proxy_dict_both_schemes environ).
  vm_compute. reflexivity.
Defined.

(** * Properties of the file scraper *)

Section FileScraperProperties.

Import FileScraper.

Variable lib : Library.
Variable environ : gmap string string.

Lemma guess_filename_not_empty url filename :
  _guess_filename lib url = Return filename -> filename <> EmptyString.
Proof.
  unfold _guess_filename.
  destruct (urlparse_path lib url) as [path|]; simpl; [|done].
  destruct (unquote lib (after_last "/" path)) eqn:Hname; intros [= <-]; done.
Qed.

(** X22. [FileScraper.scrape] returns one of two shapes.  Either the
    download went through: the response was not an error, its
    Content-Type does not mention text/html, its content is at most
    [max_bytes] long; then [success] is [True], there is no [error]
    entry, [metadata] is [{"scraper": "file"}], [file_content] is the
    encoded content and [file_name] is not empty.  Or the result is the
    initial dictionary ([success] [False], no text, images, links or
    metadata) with a non-empty [error] text added. *)
Theorem file_scrape_shapes (self : FileScraper) url :
  (scrape lib environ self url !! "success" = Some (VBool true) /\
   scrape lib environ self url !! "error" = None /\
   scrape lib environ self url !! "metadata" =
     Some (VDict (<["scraper" := VStr "file"]> ∅)) /\
   exists resp data filename,
     requests_get lib url (user_agent self)
                  (default ∅ (Utils.get_proxy_dict environ)) = Return resp /\
     status_error resp = None /\
     contains "text/html" (default EmptyString (content_type_header resp)) = false /\
     content resp = Return data /\
     (Z.of_nat (length data) <= max_bytes self)%Z /\
     scrape lib environ self url !! "file_content" =
       Some (VStr (b64encode lib data)) /\
     scrape lib environ self url !! "file_name" = Some (VStr filename) /\
     filename <> EmptyString) \/
  (exists e, e <> EmptyString /\
             scrape lib environ self url = <["error" := VStr e]> initial_result).
Proof.
  unfold scrape, download.
  destruct (requests_get lib url _ _) as [resp|exc] eqn:Hget; simpl;
    [|right; eexists; split; [|done]; done].
  destruct (status_error resp) as [exc|] eqn:Hstatus; simpl;
    [right; eexists; split; [|done]; done|].
  destruct (contains "text/html" _) eqn:Hhtml;
    [right; eexists; split; [|done]; done|].
  destruct (content resp) as [data|exc] eqn:Hdata; simpl;
    [|right; eexists; split; [|done]; done].
  destruct (Z.gtb_spec (Z.of_nat (length data)) (max_bytes self)) as [Hbig|Hfit];
    [right; eexists; split; [|done]; done|].
  destruct (_guess_filename lib url) as [filename|exc] eqn:Hname; simpl;
    [|right; eexists; split; [|done]; done].
  left. split; [done|]. split; [done|]. split; [done|].
  exists resp, data, filename.
  repeat split; try done.
  by eapply guess_filename_not_empty.
Qed.

(** The two ways [scrape] ends, for the chain. *)
Lemma scrape_success_or_error (self : FileScraper) url :
  scrape lib environ self url !! "success" = Some (VBool true) \/
  exists e, e <> EmptyString /\
            scrape lib environ self url = <["error" := VStr e]> initial_result.
Proof.
  unfold scrape, download.
  destruct (requests_get lib url _ _) as [resp|exc]; simpl;
    [|right; eexists; split; [|done]; done].
  destruct (status_error resp); simpl;
    [right; eexists; split; [|done]; done|].
  destruct (contains "text/html" _);
    [right; eexists; split; [|done]; done|].
  destruct (content resp) as [data|exc]; simpl;
    [|right; eexists; split; [|done]; done].
  destruct (Z.of_nat (length data) >? max_bytes self)%Z;
    [right; eexists; split; [|done]; done|].
  destruct (_guess_filename lib url); simpl;
    [by left|right; eexists; split; [|done]; done].
Qed.

Variable py_str : value -> string.


End FileScraperProperties.

(** * Properties of the scheduler *)

Section SchedulerProperties.

Import Scheduler.

Context {Func Interval : Type}.

Implicit Types (w : World Func Interval) (ev : event Func Interval)
  (j t : nat) (name : string).

Lemma stop_registry w j :
  _jobs (stop w j) = _jobs w /\ calls (stop w j) = calls w.
Proof. unfold stop. by destruct (job_heap w !! j). Qed.

Lemma stop_job_heap w j j' :
  job_heap (stop w j) !! j' =
  if decide (j = j')
  then (fun job => mkJob (func job) (interval job) None false) <$> job_heap w !! j'
  else job_heap w !! j'.
Proof.
  unfold stop. destruct (job_heap w !! j) as [job|] eqn:Hj; simpl.
  - case_decide as Hjj; [subst; by rewrite lookup_insert_eq, Hj|].
    by rewrite lookup_insert_ne.
  - case_decide as Hjj; [subst; by rewrite Hj|done].
Qed.

Lemma stop_timer_heap w j t :
  timer_heap (stop w j) !! t =
  match job_heap w !! j with
  | Some job =>
      if decide (_timer job = Some t) then timer_cancel <$> timer_heap w !! t
      else timer_heap w !! t
  | None => timer_heap w !! t
  end.
Proof.
  unfold stop. destruct (job_heap w !! j) as [job|]; simpl; [|done].
  destruct (_timer job) as [t0|]; [|by case_decide].
  rewrite lookup_alter.
  repeat case_decide; simplify_eq; done.
Qed.

Lemma start_registry w j :
  _jobs (start w j) = _jobs w /\ calls (start w j) = calls w.
Proof.
  unfold start. destruct (job_heap w !! j) as [job|]; [|done].
  by destruct (_running job).
Qed.

(** [start] and [stop] leave the other jobs alone. *)
Lemma start_other_job w j j' :
  j <> j' -> job_heap (start w j) !! j' = job_heap w !! j'.
Proof.
  intros Hne. unfold start. destruct (job_heap w !! j) as [job|]; [|done].
  destruct (_running job); [done|]. simpl. by rewrite lookup_insert_ne.
Qed.

(** A timer after [start] is one from before, or the new timer, which
    belongs to the started job and is armed. *)
Lemma start_timer w j t tm :
  timer_heap (start w j) !! t = Some tm ->
  timer_heap w !! t = Some tm \/ (t_job tm = j /\ t_state tm = Armed).
Proof.
  unfold start. destruct (job_heap w !! j) as [job|]; [|by left].
  destruct (_running job); [by left|]. simpl.
  destruct (decide (fresh (dom (timer_heap w)) = t)) as [<-|Hne].
  - rewrite lookup_insert_eq. intros [= <-]. by right.
  - rewrite lookup_insert_ne by done. by left.
Qed.

Lemma timer_cancel_fields (tm : Timer Interval) :
  t_job (timer_cancel tm) = t_job tm /\
  (t_state (timer_cancel tm) = Checked -> t_state tm = Checked).
Proof.
  unfold timer_cancel.
  destruct (t_state tm) eqn:Hst; simpl; rewrite ?Hst; done.
Qed.

Lemma quiet_stop w j j' : quiet w j -> quiet (stop w j') j.
Proof.
  intros [(job & Hjob & Hrun) Hnone]. split.
  - unfold stopped. rewrite stop_job_heap.
    case_decide; subst; rewrite Hjob; simpl; eauto.
  - intros t tm. rewrite stop_timer_heap.
    destruct (job_heap w !! j') as [job'|]; [|by apply Hnone].
    case_decide; [|by apply Hnone].
    destruct (timer_heap w !! t) as [tm0|] eqn:Ht; simpl; [|done].
    intros [= <-] Hj Hst.
    destruct (timer_cancel_fields tm0) as [Hjob0 Hchecked].
    apply (Hnone t tm0 Ht); [congruence|auto].
Qed.

Lemma quiet_foldl_stop (js : list nat) w j :
  quiet w j -> quiet (foldl stop w js) j.
Proof.
  revert w. induction js as [|j' js IH]; intros w Hq; [done|].
  simpl. by apply IH, quiet_stop.
Qed.

Lemma foldl_stop_calls (js : list nat) w :
  calls (foldl stop w js) = calls w.
Proof.
  revert w. induction js as [|j' js IH]; intros w; [done|].
  simpl. rewrite IH. apply stop_registry.
Qed.

Lemma quiet_start w j j' : quiet w j -> j' <> j -> quiet (start w j') j.
Proof.
  intros [(job & Hjob & Hrun) Hnone] Hne. split.
  - exists job. by rewrite start_other_job.
  - intros t tm Ht Hj Hst.
    apply start_timer in Ht as [Ht|[Hj' Harmed]].
    + by apply (Hnone t tm).
    + congruence.
Qed.

(** A job that is stopped, with no timer thread about to call its
    function, stays so, and its function is not called. *)
Lemma quiet_step w ev w' j :
  quiet w j -> step w ev = Some w' ->
  quiet w' j /\ calls_of w' j = calls_of w j.
Proof.
  intros Hq Hstep. destruct ev as [name f i|name| |t|t|t]; simpl in Hstep.
  - unfold add_job in Hstep.
    destruct (_jobs w !! name); [by simplify_eq|]. injection Hstep as <-.
    destruct Hq as [(job & Hjob & Hrun) Hnone].
    set (j' := fresh (dom (job_heap w))).
    assert (j' <> j) as Hne.
    { intros Heq. apply (is_fresh (dom (job_heap w))). fold j'. rewrite Heq.
      apply elem_of_dom. eauto. }
    split.
    + apply quiet_start; [|done]. split.
      * exists job. simpl. by rewrite lookup_insert_ne.
      * done.
    + unfold calls_of. by rewrite (proj2 (start_registry _ _)).
  - injection Hstep as <-. unfold remove_job.
    destruct (_jobs w !! name) as [j'|]; [|done]. split.
    + by apply quiet_stop.
    + unfold calls_of. by rewrite (proj2 (stop_registry _ _)).
  - injection Hstep as <-. unfold stop_all. split.
    + destruct (quiet_foldl_stop (map_to_list (_jobs w)).*2 w j Hq)
        as [Hstopped Hnone].
      by split.
    + unfold calls_of. simpl. by rewrite foldl_stop_calls.
  - unfold fire in Hstep.
    destruct (timer_heap w !! t) as [tm|] eqn:Ht; simpl in Hstep; [|done].
    destruct (job_heap w !! t_job tm) as [job'|] eqn:Hjob'; simpl in Hstep;
      [|done].
    destruct (t_state tm) eqn:Hst; try done. injection Hstep as <-.
    destruct Hq as [(job & Hjob & Hrun) Hnone]. split; [|done]. split.
    + by exists job.
    + intros t0 tm0. simpl.
      destruct (decide (t = t0)) as [<-|Hne].
      * rewrite lookup_insert_eq. intros [= <-] Hj. simpl in *.
        assert (job' = job) as -> by congruence. by rewrite Hrun.
      * rewrite lookup_insert_ne by done. apply Hnone.
  - unfold call in Hstep.
    destruct (timer_heap w !! t) as [tm|] eqn:Ht; simpl in Hstep; [|done].
    destruct (t_state tm) eqn:Hst; try done. injection Hstep as <-.
    destruct Hq as [(job & Hjob & Hrun) Hnone].
    assert (t_job tm <> j) as Hne by (intros Hj; by apply (Hnone t tm Ht Hj)).
    split; [split|].
    + by exists job.
    + intros t0 tm0. simpl.
      destruct (decide (t = t0)) as [<-|Hne'].
      * rewrite lookup_insert_eq. by intros [= <-].
      * rewrite lookup_insert_ne by done. apply Hnone.
    + unfold calls_of. simpl. by destruct (Nat.eq_dec (t_job tm) j).
  - unfold rearm in Hstep.
    destruct (timer_heap w !! t) as [tm|] eqn:Ht; simpl in Hstep; [|done].
    destruct (job_heap w !! t_job tm) as [job'|] eqn:Hjob'; simpl in Hstep;
      [|done].
    destruct (t_state tm) eqn:Hst; try done. injection Hstep as <-.
    destruct Hq as [(job & Hjob & Hrun) Hnone]. split; [|done]. split.
    + unfold stopped. simpl.
      destruct (decide (t_job tm = j)) as [Hj|Hne].
      * rewrite Hj, lookup_insert_eq. rewrite Hj in Hjob'.
        assert (job' = job) as -> by congruence. eauto.
      * rewrite lookup_insert_ne by done. eauto.
    + intros t0 tm0. simpl.
      set (timers := <[t := _]> (timer_heap w)).
      destruct (decide (fresh (dom timers) = t0)) as [<-|Hne].
      * rewrite lookup_insert_eq. by intros [= <-].
      * rewrite lookup_insert_ne by done. subst timers.
        destruct (decide (t = t0)) as [<-|Hne'].
        -- rewrite lookup_insert_eq. by intros [= <-].
        -- rewrite lookup_insert_ne by done. apply Hnone.
Qed.

Lemma quiet_exec evs w w' j :
  quiet w j -> exec w evs = Some w' ->
  quiet w' j /\ calls_of w' j = calls_of w j.
Proof.
  revert w. induction evs as [|ev evs IH]; intros w Hq Hexec; simpl in Hexec.
  - by simplify_eq.
  - destruct (step w ev) as [w1|] eqn:Hstep; simpl in Hexec; [|done].
    destruct (quiet_step _ _ _ _ Hq Hstep) as [Hq1 Hc1].
    destruct (IH _ Hq1 Hexec) as [Hq' Hc']. split; [done|congruence].
Qed.

(** What [add_job] builds for a name that is free. *)
Lemma add_job_fresh w name (f : Func) (i : Interval) :
  _jobs w !! name = None ->
  add_job w name f i =
  Return (mkWorld
            (<[fresh (dom (job_heap w)) :=
                 mkJob f i (Some (fresh (dom (timer_heap w)))) true]> (job_heap w))
            (<[fresh (dom (timer_heap w)) :=
                 mkTimer i (fresh (dom (job_heap w))) Armed]> (timer_heap w))
            (<[name := fresh (dom (job_heap w))]> (_jobs w))
            (calls w)).
Proof.
  intros Hname. unfold add_job, start. rewrite Hname. simpl.
  rewrite lookup_insert_eq. simpl. by rewrite insert_insert_eq.
Qed.

Lemma fresh_job w j : is_Some (job_heap w !! j) -> fresh (dom (job_heap w)) <> j.
Proof.
  intros Hj Heq. apply (is_fresh (dom (job_heap w))). rewrite Heq.
  by apply elem_of_dom.
Qed.

Lemma fresh_timer (timers : gmap nat (Timer Interval)) t :
  is_Some (timers !! t) -> fresh (dom timers) <> t.
Proof.
  intros Ht Heq. apply (is_fresh (dom timers)). rewrite Heq.
  by apply elem_of_dom.
Qed.

Lemma consistent_add_job w name (f : Func) (i : Interval) w' :
  consistent w -> add_job w name f i = Return w' -> consistent w'.
Proof.
  intros (Hreg & Hinj & Hrun & Htimer & Howner) Hadd.
  destruct (_jobs w !! name) as [j0|] eqn:Hname;
    [unfold add_job in Hadd; by rewrite Hname in Hadd|].
  rewrite (add_job_fresh _ _ _ _ Hname) in Hadd. injection Hadd as <-.
  set (j := fresh (dom (job_heap w))). set (t := fresh (dom (timer_heap w))).
  assert (forall n j', _jobs w !! n = Some j' -> j <> j') as Hfresh.
  { intros n j' Hn. apply fresh_job. destruct (Hreg _ _ Hn) as [(job & -> & _) _].
    eauto. }
  unfold consistent, live_timer. simpl. repeat split.
  - destruct (decide (name = name0)) as [<-|Hne].
    + rewrite lookup_insert_eq in H. injection H as <-.
      rewrite lookup_insert_eq. eauto.
    + rewrite lookup_insert_ne in H by done.
      rewrite lookup_insert_ne by by eapply Hfresh.
      by destruct (Hreg _ _ H) as [? _].
  - destruct (decide (name = name0)) as [<-|Hne].
    + rewrite lookup_insert_eq in H. injection H as <-.
      exists t. rewrite lookup_insert_eq. eauto.
    + rewrite lookup_insert_ne in H by done.
      destruct (Hreg _ _ H) as [_ (t0 & tm & Ht0 & Hlive)].
      exists t0, tm. split; [|done].
      rewrite lookup_insert_ne; [done|]. apply fresh_timer. eauto.
  - intros n1 n2 j' H1 H2.
    destruct (decide (name = n1)) as [<-|Hne1];
      destruct (decide (name = n2)) as [<-|Hne2]; [done|..].
    + rewrite lookup_insert_eq in H1. rewrite lookup_insert_ne in H2 by done.
      injection H1 as <-. by destruct (Hfresh _ _ H2).
    + rewrite lookup_insert_eq in H2. rewrite lookup_insert_ne in H1 by done.
      injection H2 as <-. by destruct (Hfresh _ _ H1).
    + rewrite lookup_insert_ne in H1, H2 by done. eauto.
  - intros j' job Hjob Hrunning.
    destruct (decide (j = j')) as [<-|Hne].
    + exists name. by rewrite lookup_insert_eq.
    + rewrite lookup_insert_ne in Hjob by done.
      destruct (Hrun _ _ Hjob Hrunning) as (n & Hn). exists n.
      rewrite lookup_insert_ne; [done|]. congruence.
  - intros j' job t' Hjob Ht'.
    destruct (decide (j = j')) as [<-|Hne].
    + rewrite lookup_insert_eq in Hjob. injection Hjob as <-. simpl in Ht'.
      injection Ht' as <-. rewrite lookup_insert_eq. eauto.
    + rewrite lookup_insert_ne in Hjob by done.
      destruct (Htimer _ _ _ Hjob Ht') as (tm & Htm & Hj).
      exists tm. split; [|done].
      rewrite lookup_insert_ne; [done|]. apply fresh_timer. eauto.
  - intros t' tm Htm.
    destruct (decide (t = t')) as [<-|Hne].
    + rewrite lookup_insert_eq in Htm. injection Htm as <-. simpl.
      rewrite lookup_insert_eq. eauto.
    + rewrite lookup_insert_ne in Htm by done.
      destruct (Howner _ _ Htm) as [job Hjob].
      rewrite lookup_insert_ne; [eauto|]. apply fresh_job. eauto.
Qed.

(** [stop] keeps every timer, with its job. *)
Lemma stop_timer_kept w j t tm :
  timer_heap w !! t = Some tm ->
  exists tm', timer_heap (stop w j) !! t = Some tm' /\ t_job tm' = t_job tm.
Proof.
  intros Ht. rewrite stop_timer_heap.
  destruct (job_heap w !! j) as [job|]; [|eauto].
  case_decide; [|eauto]. rewrite Ht. simpl.
  eexists. split; [done|]. apply timer_cancel_fields.
Qed.

Lemma stop_timer_back w j t tm' :
  timer_heap (stop w j) !! t = Some tm' ->
  exists tm, timer_heap w !! t = Some tm /\ t_job tm' = t_job tm.
Proof.
  rewrite stop_timer_heap.
  destruct (job_heap w !! j) as [job|]; [|eauto].
  case_decide; [|eauto].
  destruct (timer_heap w !! t) as [tm|]; simpl; [|done].
  intros [= <-]. eexists. split; [done|]. apply timer_cancel_fields.
Qed.

Lemma consistent_remove_job w name :
  consistent w -> consistent (remove_job w name).
Proof.
  intros Hc. pose proof Hc as (Hreg & Hinj & Hrun & Htimer & Howner).
  unfold remove_job. destruct (_jobs w !! name) as [j|] eqn:Hname; [|done].
  set (w1 := mkWorld (job_heap w) (timer_heap w) (delete name (_jobs w)) (calls w)).
  assert (consistent_objects : forall j' t, j <> j' -> live_timer w j' t ->
                                            live_timer (stop w1 j) j' t).
  { intros j' t Hne (tm & Ht & Hj & Hlive). exists tm. split; [|done].
    rewrite stop_timer_heap. simpl.
    destruct (job_heap w !! j) as [job|] eqn:Hjob; [|done].
    case_decide as Hheld; [|done].
    destruct (Htimer _ _ _ Hjob Hheld) as (tm0 & Htm0 & Hj0). congruence. }
  unfold consistent. rewrite (proj1 (stop_registry w1 j)). simpl.
  split; [|split; [|split; [|split]]].
  - intros n j' Hn.
    destruct (decide (name = n)) as [<-|Hne];
      [by rewrite lookup_delete_eq in Hn|].
    rewrite lookup_delete_ne in Hn by done.
    assert (j <> j') as Hjj by (intros <-; by destruct Hne; eapply Hinj).
    destruct (Hreg _ _ Hn) as [Hjob (t & Hlive)]. split.
    + rewrite stop_job_heap. by case_decide.
    + exists t. by apply consistent_objects.
  - intros n1 n2 j' H1 H2.
    destruct (decide (name = n1)) as [<-|Hne1];
      [by rewrite lookup_delete_eq in H1|].
    destruct (decide (name = n2)) as [<-|Hne2];
      [by rewrite lookup_delete_eq in H2|].
    rewrite lookup_delete_ne in H1, H2 by done. eauto.
  - intros j' job. rewrite stop_job_heap. simpl. case_decide as Hjj.
    + destruct (job_heap w !! j'); simpl; by intros [= <-].
    + intros Hjob Hrunning. destruct (Hrun _ _ Hjob Hrunning) as (n & Hn).
      exists n. rewrite lookup_delete_ne; [done|]. congruence.
  - intros j' job t. rewrite stop_job_heap. simpl. case_decide as Hjj.
    + destruct (job_heap w !! j'); simpl; by intros [= <-].
    + intros Hjob Ht. destruct (Htimer _ _ _ Hjob Ht) as (tm & Htm & Hj).
      destruct (stop_timer_kept w1 j t tm Htm) as (tm' & Htm' & Hj').
      exists tm'. split; [done|congruence].
  - intros t tm' Htm'.
    destruct (stop_timer_back w1 j t tm' Htm') as (tm & Htm & ->).
    rewrite stop_job_heap. simpl.
    destruct (Howner _ _ Htm) as [job Hjob].
    case_decide; rewrite Hjob; simpl; eauto.
Qed.

(** The jobs after a series of [stop] calls. *)
Lemma foldl_stop_job_heap (js : list nat) w j :
  job_heap (foldl stop w js) !! j =
  if bool_decide (j ∈ js)
  then (fun job => mkJob (func job) (interval job) None false) <$> job_heap w !! j
  else job_heap w !! j.
Proof.
  revert w. induction js as [|j' js IH]; intros w; cbn [foldl].
  - by rewrite bool_decide_eq_false_2 by apply not_elem_of_nil.
  - rewrite IH, stop_job_heap.
    destruct (decide (j = j')) as [->|Hne].
    + rewrite decide_True by done.
      rewrite (bool_decide_eq_true_2 (j' ∈ j' :: js))
        by (apply elem_of_cons; by left).
      case_bool_decide; destruct (job_heap w !! j'); done.
    + rewrite decide_False by done.
      case_bool_decide as Hin.
      * rewrite bool_decide_eq_true_2; [done|]. apply elem_of_cons. by right.
      * rewrite bool_decide_eq_false_2; [done|].
        rewrite elem_of_cons. intros [?|?]; done.
Qed.

Lemma foldl_stop_timer_kept (js : list nat) w t tm :
  timer_heap w !! t = Some tm ->
  exists tm', timer_heap (foldl stop w js) !! t = Some tm' /\ t_job tm' = t_job tm.
Proof.
  revert w tm. induction js as [|j' js IH]; intros w tm Ht; [eauto|].
  simpl. destruct (stop_timer_kept w j' t tm Ht) as (tm1 & Ht1 & Hj1).
  destruct (IH _ _ Ht1) as (tm' & Ht' & Hj'). exists tm'.
  split; [done|congruence].
Qed.

Lemma foldl_stop_timer_back (js : list nat) w t tm' :
  timer_heap (foldl stop w js) !! t = Some tm' ->
  exists tm, timer_heap w !! t = Some tm /\ t_job tm' = t_job tm.
Proof.
  revert w tm'. induction js as [|j' js IH]; intros w tm' Ht; [eauto|].
  simpl in Ht. destruct (IH _ _ Ht) as (tm1 & Ht1 & Hj1).
  destruct (stop_timer_back _ _ _ _ Ht1) as (tm & Htm & Hj).
  exists tm. split; [done|congruence].
Qed.

Lemma consistent_stop_all w : consistent w -> consistent (stop_all w).
Proof.
  intros (Hreg & Hinj & Hrun & Htimer & Howner).
  unfold stop_all, consistent. simpl.
  split; [|split; [|split; [|split]]].
  - intros n j Hn. by rewrite lookup_empty in Hn.
  - intros n1 n2 j Hn. by rewrite lookup_empty in Hn.
  - intros j job. rewrite foldl_stop_job_heap.
    case_bool_decide as Hin.
    + destruct (job_heap w !! j); simpl; by intros [= <-].
    + intros Hjob Hrunning. destruct (Hrun _ _ Hjob Hrunning) as (n & Hn).
      destruct Hin. apply list_elem_of_fmap. exists (n, j). split; [done|].
      by apply elem_of_map_to_list.
  - intros j job t. rewrite foldl_stop_job_heap.
    case_bool_decide as Hin.
    + destruct (job_heap w !! j); simpl; by intros [= <-].
    + intros Hjob Ht. destruct (Htimer _ _ _ Hjob Ht) as (tm & Htm & Hj).
      destruct (foldl_stop_timer_kept (map_to_list (_jobs w)).*2 w t tm Htm)
        as (tm' & Htm' & Hj').
      exists tm'. split; [done|congruence].
  - intros t tm' Htm'.
    destruct (foldl_stop_timer_back _ _ _ _ Htm') as (tm & Htm & ->).
    rewrite foldl_stop_job_heap.
    destruct (Howner _ _ Htm) as [job Hjob].
    case_bool_decide; rewrite Hjob; simpl; eauto.
Qed.

(** A timer thread that moves on within [_run] keeps its job and stays
    live. *)
Lemma consistent_timer_moves w t tm st :
  consistent w ->
  timer_heap w !! t = Some tm ->
  is_live (t_state tm) = true ->
  (forall job, job_heap w !! t_job tm = Some job -> _running job = true ->
               is_live st = true) ->
  consistent (mkWorld (job_heap w)
                      (<[t := mkTimer (t_interval tm) (t_job tm) st]> (timer_heap w))
                      (_jobs w) (calls w)).
Proof.
  intros (Hreg & Hinj & Hrun & Htimer & Howner) Ht Hlive Hst.
  unfold consistent, live_timer. simpl.
  split; [|split; [done|split; [done|split]]].
  - intros n j Hn. destruct (Hreg _ _ Hn) as [Hjob (t0 & tm0 & Ht0 & Hj & Hl)].
    split; [done|]. exists t0.
    destruct (decide (t = t0)) as [<-|Hne].
    + rewrite lookup_insert_eq. eexists. split; [done|]. simpl.
      assert (tm0 = tm) as -> by congruence. split; [done|].
      destruct Hjob as (job & Hjob & Hrunning). apply (Hst job); congruence.
    + rewrite lookup_insert_ne by done. eauto.
  - intros j job t0 Hjob Ht0.
    destruct (Htimer _ _ _ Hjob Ht0) as (tm0 & Htm0 & Hj).
    destruct (decide (t = t0)) as [<-|Hne].
    + rewrite lookup_insert_eq. eexists. split; [done|]. simpl. congruence.
    + rewrite lookup_insert_ne by done. eauto.
  - intros t0 tm0.
    destruct (decide (t = t0)) as [<-|Hne].
    + rewrite lookup_insert_eq. intros [= <-]. simpl. eauto.
    + rewrite lookup_insert_ne by done. eauto.
Qed.

(** Consistency does not look at the calls made. *)
Lemma consistent_calls jobs timers registry (calls1 calls2 : list nat) :
  consistent (@mkWorld Func Interval jobs timers registry calls1) ->
  consistent (mkWorld jobs timers registry calls2).
Proof. done. Qed.

Lemma consistent_rearm w t w' :
  consistent w -> rearm w t = Some w' -> consistent w'.
Proof.
  intros (Hreg & Hinj & Hrun & Htimer & Howner) Hstep. unfold rearm in Hstep.
  destruct (timer_heap w !! t) as [tm|] eqn:Ht; simpl in Hstep; [|done].
  destruct (job_heap w !! t_job tm) as [job|] eqn:Hjob; simpl in Hstep; [|done].
  destruct (t_state tm) eqn:Hst; try done. injection Hstep as <-.
  set (timers := <[t := mkTimer (t_interval tm) (t_job tm) Over]> (timer_heap w)).
  set (t' := fresh (dom timers)).
  assert (forall t0, is_Some (timer_heap w !! t0) -> t' <> t0) as Hfresh.
  { intros t0 Ht0. apply fresh_timer. subst timers.
    destruct (decide (t = t0)) as [<-|Hne];
      [rewrite lookup_insert_eq; eauto|by rewrite lookup_insert_ne]. }
  assert (t' <> t) as Hnew by (apply Hfresh; eauto).
  unfold consistent, live_timer. simpl.
  split; [|split; [done|split; [|split]]].
  - intros n j Hn. destruct (Hreg _ _ Hn) as [(job0 & Hjob0 & Hrunning) Hlive].
    split.
    + destruct (decide (t_job tm = j)) as [Hj|Hne].
      * rewrite Hj, lookup_insert_eq. rewrite Hj in Hjob.
        assert (job0 = job) as -> by congruence. eauto.
      * rewrite lookup_insert_ne by done. eauto.
    + destruct Hlive as (t0 & tm0 & Ht0 & Hj & Hl).
      destruct (decide (t = t0)) as [<-|Hne].
      * exists t'. rewrite lookup_insert_eq. eexists. split; [done|]. simpl.
        split; [congruence|done].
      * exists t0, tm0. split; [|done].
        rewrite lookup_insert_ne by (apply Hfresh; eauto). subst timers.
        by rewrite lookup_insert_ne.
  - intros j job0.
    destruct (decide (t_job tm = j)) as [Hj|Hne].
    + rewrite Hj, lookup_insert_eq. intros [= <-]. simpl. intros Hrunning.
      rewrite Hj in Hjob. eauto.
    + rewrite lookup_insert_ne by done. eauto.
  - intros j job0 t0.
    destruct (decide (t_job tm = j)) as [Hj|Hne].
    + rewrite Hj, lookup_insert_eq. intros [= <-]. simpl. intros [= <-].
      rewrite lookup_insert_eq. eauto.
    + rewrite lookup_insert_ne by done. intros Hjob0 Ht0.
      destruct (Htimer _ _ _ Hjob0 Ht0) as (tm0 & Htm0 & Hj0).
      rewrite lookup_insert_ne by (apply Hfresh; eauto). subst timers.
      destruct (decide (t = t0)) as [<-|Hne'].
      * rewrite lookup_insert_eq. eexists. split; [done|]. simpl. congruence.
      * rewrite lookup_insert_ne by done. eauto.
  - intros t0 tm0 Htm0.
    assert (exists tm1, timer_heap w !! t0 = Some tm1 /\ t_job tm0 = t_job tm1
            \/ t_job tm0 = t_job tm) as Hold.
    { destruct (decide (t' = t0)) as [<-|Hne].
      - rewrite lookup_insert_eq in Htm0. injection Htm0 as <-. exists tm. by right.
      - rewrite lookup_insert_ne in Htm0 by done. subst timers.
        destruct (decide (t = t0)) as [<-|Hne'].
        + rewrite lookup_insert_eq in Htm0. injection Htm0 as <-. exists tm.
          by right.
        + rewrite lookup_insert_ne in Htm0 by done. exists tm0. by left. }
    destruct Hold as (tm1 & [[Htm1 ->]| ->]).
    + destruct (Howner _ _ Htm1) as [job1 Hjob1].
      destruct (decide (t_job tm = t_job tm1)) as [<-|Hne].
      * rewrite lookup_insert_eq. eauto.
      * rewrite lookup_insert_ne by done. eauto.
    + rewrite lookup_insert_eq. eauto.
Qed.

Lemma consistent_step w ev w' :
  consistent w -> step w ev = Some w' -> consistent w'.
Proof.
  intros Hc Hstep. destruct ev as [name f i|name| |t|t|t]; simpl in Hstep.
  - destruct (add_job w name f i) as [w1|] eqn:Hadd; simplify_eq; [|done].
    by eapply consistent_add_job.
  - injection Hstep as <-. by apply consistent_remove_job.
  - injection Hstep as <-. by apply consistent_stop_all.
  - unfold fire in Hstep.
    destruct (timer_heap w !! t) as [tm|] eqn:Ht; simpl in Hstep; [|done].
    destruct (job_heap w !! t_job tm) as [job|] eqn:Hjob; simpl in Hstep; [|done].
    destruct (t_state tm) eqn:Hst; try done. injection Hstep as <-.
    apply consistent_timer_moves; [done|done|by rewrite Hst|].
    intros job0 Hjob0 Hrunning. assert (job0 = job) as -> by congruence.
    by rewrite Hrunning.
  - unfold call in Hstep.
    destruct (timer_heap w !! t) as [tm|] eqn:Ht; simpl in Hstep; [|done].
    destruct (t_state tm) eqn:Hst; try done. injection Hstep as <-.
    eapply consistent_calls.
    apply (consistent_timer_moves w t tm InFunction); [done|done|by rewrite Hst|done].
  - by eapply consistent_rearm.
Qed.

Lemma consistent_exec evs w w' :
  consistent w -> exec w evs = Some w' -> consistent w'.
Proof.
  revert w. induction evs as [|ev evs IH]; intros w Hc Hexec; simpl in Hexec.
  - by simplify_eq.
  - destruct (step w ev) as [w1|] eqn:Hstep; simpl in Hexec; [|done].
    eapply IH; [|done]. by eapply consistent_step.
Qed.

Lemma consistent_init : consistent (@init Func Interval).
Proof.
  unfold consistent, init. simpl.
  repeat split; intros; by rewrite ?lookup_empty in *.
Qed.

Lemma reachable_consistent evs w :
  exec init evs = Some w -> consistent w.
Proof. intros Hexec. eapply consistent_exec; [apply consistent_init|done]. Qed.

Lemma none_checked_stop w j j' : none_checked w j -> none_checked (stop w j') j.
Proof.
  intros Hnone t tm. rewrite stop_timer_heap.
  destruct (job_heap w !! j') as [job'|]; [|by apply Hnone].
  case_decide; [|by apply Hnone].
  destruct (timer_heap w !! t) as [tm0|] eqn:Ht; simpl; [|done].
  intros [= <-] Hj Hst.
  destruct (timer_cancel_fields tm0) as [Hjob0 Hchecked].
  apply (Hnone t tm0 Ht); [congruence|auto].
Qed.

Lemma none_checked_foldl_stop (js : list nat) w j :
  none_checked w j -> none_checked (foldl stop w js) j.
Proof.
  revert w. induction js as [|j' js IH]; intros w Hnone; [done|].
  simpl. by apply IH, none_checked_stop.
Qed.

(** X24. In every state the scheduler can reach, the running jobs are
    exactly the registered ones: a job object is running if and only
    if [ScheduleManager._jobs] holds it under some name; and a
    registered job always has a timer that is waiting or whose thread is
    in [_run]. *)
Theorem registered_jobs_are_the_running_ones evs w j job :
  exec init evs = Some w ->
  job_heap w !! j = Some job ->
  (_running job = true <-> exists name, _jobs w !! name = Some j) /\
  (_running job = true -> exists t, live_timer w j t).
Proof.
  intros Hexec Hjob.
  destruct (reachable_consistent _ _ Hexec) as (Hreg & _ & Hrun & _ & _).
  assert (_running job = true -> exists name, _jobs w !! name = Some j) as Hthen
    by (intros Hr; by eapply Hrun).
  split; [split; [done|]|].
  - intros (name & Hname).
    destruct (Hreg _ _ Hname) as [(job' & Hjob' & Hr) _]. congruence.
  - intros Hr. destruct (Hthen Hr) as (name & Hname).
    by destruct (Hreg _ _ Hname) as [_ Hlive].
Qed.

(** X25. After [remove_job], the function of the removed job is never
    called again, whatever the timers and the manager do afterwards,
    provided no timer thread of the job stood between the test of
    [_running] and the call when the job was removed. *)
Theorem removed_job_not_called_again evs w name j evs' w' :
  exec init evs = Some w ->
  _jobs w !! name = Some j ->
  none_checked w j ->
  exec (remove_job w name) evs' = Some w' ->
  calls_of w' j = calls_of w j.
Proof.
  intros Hexec Hname Hnone Hexec'.
  destruct (reachable_consistent _ _ Hexec) as (Hreg & _).
  destruct (Hreg _ _ Hname) as [(job & Hjob & _) _].
  assert (quiet (remove_job w name) j) as Hq.
  { unfold remove_job. rewrite Hname. split.
    - unfold stopped. rewrite stop_job_heap. simpl.
      rewrite decide_True by done. rewrite Hjob. simpl. eauto.
    - by apply none_checked_stop. }
  destruct (quiet_exec _ _ _ _ Hq Hexec') as [_ ->].
  unfold calls_of, remove_job. rewrite Hname.
  by rewrite (proj2 (stop_registry _ _)).
Qed.

(** X26. A registered job is always called again: from every state the
    scheduler can reach there are timer steps after which the job's
    function has been called once more, also when its last call raised. *)
Theorem registered_job_runs_again evs w name j :
  exec init evs = Some w ->
  _jobs w !! name = Some j ->
  exists evs' w',
    exec w evs' = Some w' /\
    calls w' = j :: calls w /\
    _jobs w' !! name = Some j.
Proof.
  intros Hexec Hname.
  destruct (reachable_consistent _ _ Hexec) as (Hreg & _).
  destruct (Hreg _ _ Hname)
    as [(job & Hjob & Hrunning) (t & tm & Ht & Hj & Hlive)].
  subst j. destruct (t_state tm) eqn:Hst; try done.
  - exists [Fire t; Call t]. eexists. simpl. unfold fire, call.
    rewrite Ht. simpl. rewrite Hjob, Hst. simpl. rewrite Hrunning.
    rewrite lookup_insert_eq. simpl. done.
  - exists [Call t]. eexists. simpl. unfold call.
    rewrite Ht. simpl. rewrite Hst. simpl. done.
  - set (timers := <[t := mkTimer (t_interval tm) (t_job tm) Over]> (timer_heap w)).
    exists [Rearm t; Fire (fresh (dom timers)); Call (fresh (dom timers))].
    eexists. simpl. unfold rearm, fire, call.
    rewrite Ht. simpl. rewrite Hjob, Hst. simpl. fold timers.
    repeat (rewrite ?lookup_insert_eq, ?Hrunning; simpl). done.
Qed.

(** X27. After [stop_all] the registry is empty and no job that
    existed is ever called again, whatever the timers and the manager do
    afterwards (except by a timer thread that already stood between the
    test of [_running] and the call). *)
Theorem stop_all_stops_every_job evs w :
  exec init evs = Some w ->
  _jobs (stop_all w) = ∅ /\
  forall j evs' w',
    is_Some (job_heap w !! j) ->
    none_checked w j ->
    exec (stop_all w) evs' = Some w' ->
    calls_of w' j = calls_of w j.
Proof.
  intros Hexec. split; [done|]. intros j evs' w' [job Hjob] Hnone Hexec'.
  destruct (reachable_consistent _ _ Hexec) as (_ & _ & Hrun & _).
  assert (quiet (stop_all w) j) as Hq.
  { split.
    - unfold stopped, stop_all. simpl. rewrite foldl_stop_job_heap, Hjob.
      case_bool_decide as Hin; simpl; [eauto|].
      exists job. split; [done|].
      destruct (_running job) eqn:Hr; [|done].
      destruct (Hrun _ _ Hjob Hr) as (n & Hn).
      destruct Hin. apply list_elem_of_fmap. exists (n, j). split; [done|].
      by apply elem_of_map_to_list.
    - intros t tm. unfold stop_all. simpl.
      by apply none_checked_foldl_stop. }
  destruct (quiet_exec _ _ _ _ Hq Hexec') as [_ ->].
  unfold calls_of, stop_all. simpl. by rewrite foldl_stop_calls.
Qed.

Lemma unfired_stop w j t j' : unfired w j t -> unfired (stop w j') j t.
Proof.
  intros Hun t' tm. rewrite stop_timer_heap.
  destruct (job_heap w !! j') as [job'|]; [|by apply Hun].
  case_decide; [|by apply Hun].
  destruct (timer_heap w !! t') as [tm0|] eqn:Ht; simpl; [|done].
  intros [= <-] Hj.
  destruct (timer_cancel_fields tm0) as [Hjob0 _].
  destruct (Hun t' tm0 Ht) as [-> Hst]; [congruence|].
  split; [done|]. unfold timer_cancel.
  destruct Hst as [Hst|Hst]; rewrite Hst; simpl; auto.
Qed.

Lemma new_job_stop w name j t j' :
  new_job w name j t -> new_job (stop w j') name j t.
Proof.
  intros ([job Hjob] & Hname & Hun). split; [|split].
  - rewrite stop_job_heap. case_decide; rewrite Hjob; simpl; eauto.
  - by rewrite (proj1 (stop_registry _ _)).
  - by apply unfired_stop.
Qed.

Lemma new_job_foldl_stop (js : list nat) w name j t :
  new_job w name j t -> new_job (foldl stop w js) name j t.
Proof.
  revert w. induction js as [|j' js IH]; intros w Hnew; [done|].
  simpl. by apply IH, new_job_stop.
Qed.

(** As long as the timer of a new job does not fire, the job stays new
    and its function is not called. *)
Lemma new_job_step w ev w' name j t :
  new_job w name j t -> step w ev = Some w' -> ev <> Fire t ->
  new_job w' name j t /\ calls_of w' j = calls_of w j.
Proof.
  intros Hnew Hstep Hev.
  destruct ev as [n f i|n| |t0|t0|t0]; simpl in Hstep.
  - unfold add_job in Hstep.
    destruct (_jobs w !! n) as [j0|] eqn:Hn; [by simplify_eq|].
    injection Hstep as <-.
    destruct Hnew as ([job Hjob] & Hname & Hun).
    set (j' := fresh (dom (job_heap w))).
    assert (j' <> j) as Hne by (apply fresh_job; eauto).
    split; [split; [|split]|].
    + rewrite start_other_job by done. simpl.
      rewrite lookup_insert_ne by done. eauto.
    + intros n'. rewrite (proj1 (start_registry _ _)). simpl.
      destruct (decide (n = n')) as [<-|Hnn].
      * rewrite lookup_insert_eq. congruence.
      * rewrite lookup_insert_ne by done. apply Hname.
    + intros t' tm Htm Hj.
      apply start_timer in Htm as [Htm|[Hj' _]]; [|congruence].
      by apply (Hun t' tm).
    + unfold calls_of. by rewrite (proj2 (start_registry _ _)).
  - injection Hstep as <-. unfold remove_job.
    destruct (_jobs w !! n) as [j0|] eqn:Hn; [|done].
    split.
    + apply new_job_stop. destruct Hnew as (Hjob & Hname & Hun).
      split; [done|]. split; [|done].
      intros n'. simpl. destruct (decide (n = n')) as [<-|Hnn].
      * by rewrite lookup_delete_eq.
      * rewrite lookup_delete_ne by done. apply Hname.
    + unfold calls_of. by rewrite (proj2 (stop_registry _ _)).
  - injection Hstep as <-. unfold stop_all. split.
    + destruct (new_job_foldl_stop (map_to_list (_jobs w)).*2 w name j t Hnew)
        as (Hjob & _ & Hun).
      split; [done|]. split; [|done].
      intros n'. simpl. by rewrite lookup_empty.
    + unfold calls_of. simpl. by rewrite foldl_stop_calls.
  - unfold fire in Hstep.
    destruct (timer_heap w !! t0) as [tm|] eqn:Ht; simpl in Hstep; [|done].
    destruct (job_heap w !! t_job tm) as [job'|] eqn:Hjob'; simpl in Hstep;
      [|done].
    destruct (t_state tm) eqn:Hst; try done. injection Hstep as <-.
    destruct Hnew as (Hjob & Hname & Hun).
    split; [|done]. split; [done|]. split; [done|].
    intros t' tm'. simpl.
    destruct (decide (t0 = t')) as [<-|Hne].
    + rewrite lookup_insert_eq. intros [= <-] Hj. simpl in Hj.
      destruct (Hun t0 tm Ht Hj) as [-> _]. by destruct Hev.
    + rewrite lookup_insert_ne by done. apply Hun.
  - unfold call in Hstep.
    destruct (timer_heap w !! t0) as [tm|] eqn:Ht; simpl in Hstep; [|done].
    destruct (t_state tm) eqn:Hst; try done. injection Hstep as <-.
    destruct Hnew as (Hjob & Hname & Hun).
    assert (t_job tm <> j) as Hne.
    { intros Hj. destruct (Hun t0 tm Ht Hj) as [_ [?|?]]; congruence. }
    split; [split; [done|split; [done|]]|].
    + intros t' tm'. simpl.
      destruct (decide (t0 = t')) as [<-|Hne'].
      * rewrite lookup_insert_eq. by intros [= <-].
      * rewrite lookup_insert_ne by done. apply Hun.
    + unfold calls_of. simpl. by destruct (Nat.eq_dec (t_job tm) j).
  - unfold rearm in Hstep.
    destruct (timer_heap w !! t0) as [tm|] eqn:Ht; simpl in Hstep; [|done].
    destruct (job_heap w !! t_job tm) as [job'|] eqn:Hjob'; simpl in Hstep;
      [|done].
    destruct (t_state tm) eqn:Hst; try done. injection Hstep as <-.
    destruct Hnew as ([job Hjob] & Hname & Hun).
    assert (t_job tm <> j) as Hne.
    { intros Hj. destruct (Hun t0 tm Ht Hj) as [_ [?|?]]; congruence. }
    split; [|done]. split; [|split; [done|]].
    + simpl. rewrite lookup_insert_ne by done. eauto.
    + intros t' tm'. simpl.
      set (timers := <[t0 := _]> (timer_heap w)).
      destruct (decide (fresh (dom timers) = t')) as [<-|Hne'].
      * rewrite lookup_insert_eq. by intros [= <-].
      * rewrite lookup_insert_ne by done. subst timers.
        destruct (decide (t0 = t')) as [<-|Hne''].
        -- rewrite lookup_insert_eq. by intros [= <-].
        -- rewrite lookup_insert_ne by done. apply Hun.
Qed.

Lemma new_job_exec evs w w' name j t :
  new_job w name j t -> exec w evs = Some w' -> Fire t ∉ evs ->
  new_job w' name j t /\ calls_of w' j = calls_of w j.
Proof.
  revert w. induction evs as [|ev evs IH]; intros w Hnew Hexec Hfire;
    simpl in Hexec.
  - by simplify_eq.
  - destruct (step w ev) as [w1|] eqn:Hstep; simpl in Hexec; [|done].
    apply not_elem_of_cons in Hfire as [Hev Hfire].
    destruct (new_job_step _ _ _ _ _ _ Hnew Hstep) as [Hnew1 Hc1]; [done|].
    destruct (IH _ Hnew1 Hexec Hfire) as [Hnew' Hc']. split; [done|congruence].
Qed.

(** Removing the name of a new job leaves the job stopped, with no
    timer thread about to call its function. *)
Lemma new_job_removed w name j t :
  consistent w -> new_job w name j t -> quiet (remove_job w name) j.
Proof.
  intros (_ & _ & Hrun & _) ([job Hjob] & Hname & Hun).
  unfold remove_job.
  destruct (_jobs w !! name) as [j0|] eqn:Hn.
  - split.
    + unfold stopped. rewrite stop_job_heap. simpl.
      case_decide as Hjj; rewrite Hjob; simpl; [eauto|].
      exists job. split; [done|].
      destruct (_running job) eqn:Hr; [|done].
      destruct (Hrun _ _ Hjob Hr) as (n & Hn').
      pose proof (Hname _ Hn') as ->. congruence.
    + intros t' tm Htm Hj.
      set (w1 := mkWorld _ _ _ _) in Htm.
      assert (unfired w1 j t) as Hun1 by exact Hun.
      destruct (unfired_stop w1 j t j0 Hun1 t' tm Htm Hj) as [_ [Hst|Hst]];
        congruence.
  - split.
    + exists job. split; [done|].
      destruct (_running job) eqn:Hr; [|done].
      destruct (Hrun _ _ Hjob Hr) as (n & Hn').
      pose proof (Hname _ Hn') as ->. congruence.
    + intros t' tm Htm Hj.
      destruct (Hun t' tm Htm Hj) as [_ [Hst|Hst]]; congruence.
Qed.

(** X28. Adding a job under a free name and removing it again at once
    leaves the registry, the other jobs and their timers as they were.
    And when the job is removed before its first timer has fired,
    whatever else the manager and the other timers have done in between,
    its function is never called: not before the removal and not after
    it. *)
Theorem add_then_remove evs w name (f : Func) (i : Interval) :
  exec init evs = Some w ->
  _jobs w !! name = None ->
  exists w1,
    add_job w name f i = Return w1 /\
    _jobs (remove_job w1 name) = _jobs w /\
    (forall j, is_Some (job_heap w !! j) ->
               job_heap (remove_job w1 name) !! j = job_heap w !! j) /\
    (forall t, is_Some (timer_heap w !! t) ->
               timer_heap (remove_job w1 name) !! t = timer_heap w !! t) /\
    forall evs1 w2 evs2 w3,
      exec w1 evs1 = Some w2 ->
      Fire (fresh (dom (timer_heap w))) ∉ evs1 ->
      exec (remove_job w2 name) evs2 = Some w3 ->
      calls_of w3 (fresh (dom (job_heap w))) = calls_of w (fresh (dom (job_heap w))).
Proof.
  intros Hexec Hname.
  pose proof (reachable_consistent _ _ Hexec) as Hc.
  pose proof Hc as (Hreg & _ & _ & _ & Howner).
  eexists. split; [by apply add_job_fresh|].
  set (j := fresh (dom (job_heap w))). set (t := fresh (dom (timer_heap w))).
  set (w1 := mkWorld _ _ _ _).
  split; [|split; [|split]].
  - unfold remove_job. simpl. rewrite lookup_insert_eq.
    rewrite (proj1 (stop_registry _ _)). simpl.
    by rewrite delete_insert_id.
  - intros j' Hj'. unfold remove_job. simpl. rewrite lookup_insert_eq.
    rewrite stop_job_heap. simpl.
    rewrite decide_False by by apply fresh_job.
    rewrite lookup_insert_ne; [done|]. by apply fresh_job.
  - intros t' Ht'. unfold remove_job. simpl. rewrite lookup_insert_eq.
    unfold stop. simpl. rewrite lookup_insert_eq. simpl.
    rewrite lookup_alter_ne, lookup_insert_ne; [done|..]; by apply fresh_timer.
  - intros evs1 w2 evs2 w3 Hexec1 Hfire Hexec2.
    assert (new_job w1 name j t) as Hnew.
    { split; [|split].
      - simpl. rewrite lookup_insert_eq. eauto.
      - intros n. simpl. destruct (decide (name = n)) as [<-|Hne]; [done|].
        rewrite lookup_insert_ne by done. intros Hn.
        destruct (Hreg _ _ Hn) as [(job & Hjob & _) _].
        by destruct (fresh_job w j (mk_is_Some _ _ Hjob)).
      - intros t' tm. simpl.
        destruct (decide (t = t')) as [<-|Hne].
        + rewrite lookup_insert_eq. intros [= <-]. simpl. auto.
        + rewrite lookup_insert_ne by done. intros Htm Hj.
          destruct (Howner _ _ Htm) as [job Hjob]. rewrite Hj in Hjob.
          by destruct (fresh_job w j (mk_is_Some _ _ Hjob)). }
    assert (consistent w1) as Hc1
      by (eapply consistent_add_job; [exact Hc|by apply add_job_fresh]).
    pose proof (consistent_exec _ _ _ Hc1 Hexec1) as Hc2.
    destruct (new_job_exec _ _ _ _ _ _ Hnew Hexec1 Hfire) as [Hnew2 Hcalls2].
    destruct (quiet_exec _ _ _ _ (new_job_removed _ _ _ _ Hc2 Hnew2) Hexec2)
      as [_ ->].
    transitivity (calls_of w2 j); [|done].
    unfold calls_of, remove_job.
    destruct (_jobs w2 !! name); [|done].
    by rewrite (proj2 (stop_registry _ _)).
Qed.

End SchedulerProperties.

(** * The file scraper and the scheduler on concrete inputs *)


Lemma registered_jobs_are_the_running_ones_witness :
  (true = true <-> exists name, Scheduler._jobs (scheduler_after two_jobs) !! name = Some 0) /\
  (true = true -> exists t, Scheduler.live_timer (scheduler_after two_jobs) 0 t).
Proof.
  apply (registered_jobs_are_the_running_ones two_jobs (scheduler_after two_jobs) 0
           (Scheduler.mkJob "refresh_news" 60%Z (Some 0) true)).
  - vm_compute. reflexivity.
  - vm_compute. reflexivity.
Defined.

Lemma none_checked_from_list {Func Interval : Type}
    (w : Scheduler.World Func Interval) (j : nat) :
  Forall (fun entry => Scheduler.t_job (snd entry) = j ->
                       Scheduler.t_state (snd entry) <> Scheduler.Checked)
         (map_to_list (Scheduler.timer_heap w)) ->
  Scheduler.none_checked w j.
Proof.
  intros Hall t tm Ht. rewrite Forall_forall in Hall.
  apply (Hall (t, tm)). by apply elem_of_map_to_list.
Qed.

Lemma removed_job_not_called_again_witness :
  Scheduler.calls_of
    (default Scheduler.init
       (Scheduler.exec (Scheduler.remove_job (scheduler_after two_jobs) "news")
                       [Scheduler.Fire 1; Scheduler.Call 1])) 0 =
  Scheduler.calls_of (scheduler_after two_jobs) 0.
Proof.
  apply (removed_job_not_called_again two_jobs (scheduler_after two_jobs) "news" 0
           [Scheduler.Fire 1; Scheduler.Call 1]).
  - vm_compute. reflexivity.
  - vm_compute. reflexivity.
  - apply none_checked_from_list. vm_compute.
    repeat constructor; intros; discriminate.
  - vm_compute. reflexivity.
Defined.

Lemma registered_job_runs_again_witness :
  exists evs' w',
    Scheduler.exec (scheduler_after two_jobs) evs' = Some w' /\
    Scheduler.calls w' = 1 :: Scheduler.calls (scheduler_after two_jobs) /\
    Scheduler._jobs w' !! "prices" = Some 1.
Proof.
  apply (registered_job_runs_again two_jobs (scheduler_after two_jobs) "prices" 1).
  - vm_compute. reflexivity.
  - vm_compute. reflexivity.
Defined.

Lemma stop_all_stops_every_job_witness :
  Scheduler._jobs (Scheduler.stop_all (scheduler_after two_jobs)) = ∅ /\
  Scheduler.calls_of
    (default Scheduler.init
       (Scheduler.exec (Scheduler.stop_all (scheduler_after two_jobs))
                       [Scheduler.Add_job "news" "refresh_news" 60%Z])) 1 =
  Scheduler.calls_of (scheduler_after two_jobs) 1.
Proof.
  destruct (stop_all_stops_every_job two_jobs (scheduler_after two_jobs))
    as [Hempty Hquiet]; [vm_compute; reflexivity|].
  split; [exact Hempty|].
  apply (Hquiet 1 [Scheduler.Add_job "news" "refresh_news" 60%Z]).
  - vm_compute. eauto.
  - apply none_checked_from_list. vm_compute.
    repeat constructor; intros; discriminate.
  - vm_compute. reflexivity.
Defined.

Lemma add_then_remove_witness :
  exists w1,
    Scheduler.add_job (scheduler_after two_jobs) "weather" "refresh_weather" 900%Z =
      Return w1 /\
    Scheduler._jobs (Scheduler.remove_job w1 "weather") =
      Scheduler._jobs (scheduler_after two_jobs) /\
    (forall j, is_Some (Scheduler.job_heap (scheduler_after two_jobs) !! j) ->
               Scheduler.job_heap (Scheduler.remove_job w1 "weather") !! j =
               Scheduler.job_heap (scheduler_after two_jobs) !! j) /\
    (forall t, is_Some (Scheduler.timer_heap (scheduler_after two_jobs) !! t) ->
               Scheduler.timer_heap (Scheduler.remove_job w1 "weather") !! t =
               Scheduler.timer_heap (scheduler_after two_jobs) !! t) /\
    forall evs1 w2 evs2 w3,
      Scheduler.exec w1 evs1 = Some w2 ->
      Scheduler.Fire (fresh (dom (Scheduler.timer_heap (scheduler_after two_jobs))))
        ∉ evs1 ->
      Scheduler.exec (Scheduler.remove_job w2 "weather") evs2 = Some w3 ->
      Scheduler.calls_of w3
        (fresh (dom (Scheduler.job_heap (scheduler_after two_jobs)))) =
      Scheduler.calls_of (scheduler_after two_jobs)
        (fresh (dom (Scheduler.job_heap (scheduler_after two_jobs)))).
Proof.
  apply (add_then_remove two_jobs (scheduler_after two_jobs) "weather"
           "refresh_weather" 900%Z).
  - vm_compute. reflexivity.
  - vm_compute. reflexivity.
Defined.
